(** * cudf.io.parquet: partitioned Parquet datasets and engine dispatch

    A shallow embedding of [python/cudf/cudf/io/parquet.py]:
    [_get_partition_groups], [_ensure_filesystem], [write_to_dataset],
    [read_parquet], [to_parquet] and [merge_parquet_filemetadata].

    The dataframe primitives the module calls ([sort_values],
    [drop_duplicates], [searchsorted], [iloc], [drop]) and the native
    codec ([libparquet]) live outside this file of the repository; they
    are modelled here from their documented behaviour, each under a
    comment that says so.  Floating point values are not modelled. *)

From Stdlib Require Import ZArith Lia Bool String Ascii Arith DecimalString.
From Stdlib Require Import List Sorting.Sorted Sorting.Permutation.
Import ListNotations.

Local Open Scope string_scope.
Local Open Scope list_scope.

(** ** Comparisons that are total orders *)

Class TotalCmp {A : Type} (cmp : A -> A -> comparison) : Prop := {
  cmp_eq : forall a b, cmp a b = Eq <-> a = b;
  cmp_antisym : forall a b, cmp b a = CompOpp (cmp a b);
  cmp_trans : forall a b c, cmp a b = Lt -> cmp b c = Lt -> cmp a c = Lt
}.

Definition cmp_ltb {A} (cmp : A -> A -> comparison) (a b : A) : bool :=
  match cmp a b with Lt => true | _ => false end.

Definition cmp_leb {A} (cmp : A -> A -> comparison) (a b : A) : bool :=
  match cmp a b with Gt => false | _ => true end.

Definition cmp_eqb {A} (cmp : A -> A -> comparison) (a b : A) : bool :=
  match cmp a b with Eq => true | _ => false end.

(** Lexicographic comparison of tuples, as Python compares tuples and
    as a multi-column sort compares rows. *)
Fixpoint lex_compare {A} (cmp : A -> A -> comparison) (u v : list A)
  : comparison :=
  match u, v with
  | [], [] => Eq
  | [], _ :: _ => Lt
  | _ :: _, [] => Gt
  | a :: u', b :: v' =>
      match cmp a b with
      | Eq => lex_compare cmp u' v'
      | c => c
      end
  end.

(** ** Cell values

    A cell is null, an integer or a string.  Nulls order last, which is
    the default [na_position] of both [sort_values] and
    [searchsorted]; strings compare byte-wise. *)
Inductive scalar : Type :=
| SNull
| SInt (z : Z)
| SStr (s : string).

Definition scalar_compare (a b : scalar) : comparison :=
  match a, b with
  | SNull, SNull => Eq
  | SNull, _ => Gt
  | _, SNull => Lt
  | SInt x, SInt y => Z.compare x y
  | SInt _, SStr _ => Lt
  | SStr _, SInt _ => Gt
  | SStr x, SStr y => String.compare x y
  end.

(** A partition key: the tuple of a row's values in the partition
    columns. *)
Definition key : Type := list scalar.

Definition key_compare : key -> key -> comparison := lex_compare scalar_compare.
Definition key_ltb : key -> key -> bool := cmp_ltb key_compare.
Definition key_leb : key -> key -> bool := cmp_leb key_compare.
Definition key_eqb : key -> key -> bool := cmp_eqb key_compare.

(** Python's [str.format] on a cell. *)
Definition format_value (v : scalar) : string :=
  match v with
  | SNull => "None"
  | SInt z => NilZero.string_of_int (Z.to_int z)
  | SStr s => s
  end.

(** ** Exceptions and results *)

Inductive exn : Type :=
| KeyError (name : string)
| KeyErrorLabels (labels : list string)
| IndexError
| ValueError (msg : string)
| FileNotFoundError (path : string)
| UnknownColumn (name : string)
| SchemaMismatch
| CorruptFooter
| CorruptChunk
| TypeError.

Inductive result (A : Type) : Type :=
| Ok (a : A)
| Raise (e : exn).
Arguments Ok {A} a.
Arguments Raise {A} e.

Definition rbind {A B} (r : result A) (f : A -> result B) : result B :=
  match r with
  | Ok a => f a
  | Raise e => Raise e
  end.

Declare Scope result_scope.
Delimit Scope result_scope with result.
Notation "'let?' x ':=' r 'in' k" := (rbind r (fun x => k))
  (at level 10, x pattern, r at level 100, k at level 200) : result_scope.

(** ** Dataframes

    A dataframe is a schema (ordered column names with their dtype) and
    a list of rows; each row carries its index label and one cell per
    column.  [wf_df] is the table invariant (all columns have the same
    number of rows): every row has one cell per column. *)

Inductive dtype : Type :=
| Int64
| Utf8
| Boolean
| Timestamp
| Category.

Definition dtype_name (d : dtype) : string :=
  match d with
  | Int64 => "int64"
  | Utf8 => "object"
  | Boolean => "bool"
  | Timestamp => "datetime64[ns]"
  | Category => "category"
  end.

Record Row : Type := mkRow { label : Z; cells : list scalar }.

Record DataFrame : Type := mkDF {
  columns : list (string * dtype);
  rows : list Row
}.

Definition wf_df (df : DataFrame) : Prop :=
  Forall (fun r => List.length (cells r) = List.length (columns df)) (rows df).

Definition column_names (df : DataFrame) : list string := map fst (columns df).

(** [len(df)] *)
Definition len (df : DataFrame) : nat := List.length (rows df).

(** Position of a column name in a schema. *)
Fixpoint col_index (name : string) (cols : list (string * dtype)) : option nat :=
  match cols with
  | [] => None
  | (n, _) :: cols' =>
      if String.eqb n name then Some 0
      else option_map S (col_index name cols')
  end.

Fixpoint col_indices (names : list string) (cols : list (string * dtype))
  : result (list nat) :=
  match names with
  | [] => Ok []
  | n :: names' =>
      match col_index n cols with
      | None => Raise (KeyError n)
      | Some i =>
          match col_indices names' cols with
          | Ok rest => Ok (i :: rest)
          | Raise e => Raise e
          end
      end
  end.

(** The cells of a row at the given positions. *)
Definition project (pos : list nat) (r : Row) : key :=
  map (fun i => nth i (cells r) SNull) pos.

(** Modelled from the spec: [DataFrame.__getitem__] with a list of
    column names is not under src/; it selects those columns, in the
    order asked, and raises [KeyError] for a name the frame lacks. *)
Definition getitem (df : DataFrame) (names : list string) : result DataFrame :=
  (let? pos := col_indices names (columns df) in
   Ok (mkDF (map (fun i => nth i (columns df) (""%string, Int64)) pos)
            (map (fun r => mkRow (label r) (project pos r)) (rows df))))%result.

(** Modelled from the spec: [DataFrame.sort_values] is not under src/;
    the spec asks for a stable sort by the partition-key tuple.  This is
    insertion sort: a row goes before the first row whose key is not
    smaller. *)
Fixpoint insert_row (pos : list nat) (r : Row) (l : list Row) : list Row :=
  match l with
  | [] => [r]
  | r' :: l' =>
      if key_leb (project pos r) (project pos r') then r :: l
      else r' :: insert_row pos r l'
  end.

Fixpoint sort_rows (pos : list nat) (l : list Row) : list Row :=
  match l with
  | [] => []
  | r :: l' => insert_row pos r (sort_rows pos l')
  end.

Definition sort_values (df : DataFrame) (by_ : list string) : result DataFrame :=
  (let? pos := col_indices by_ (columns df) in
   Ok (mkDF (columns df) (sort_rows pos (rows df))))%result.

(** Modelled from the spec: [DataFrame.reset_index(drop=True)] is not
    under src/; it replaces the index by 0, 1, ..., n-1. *)
Definition reset_index (df : DataFrame) : DataFrame :=
  mkDF (columns df)
       (map (fun '(i, r) => mkRow (Z.of_nat i) (cells r))
            (combine (seq 0 (List.length (rows df))) (rows df))).

(** Modelled from the spec: [DataFrame.drop_duplicates] is not under
    src/; it keeps the first row of every distinct tuple of values, in
    order. *)
Fixpoint drop_duplicates_rows (seen : list key) (l : list Row) : list Row :=
  match l with
  | [] => []
  | r :: l' =>
      if existsb (key_eqb (cells r)) seen then drop_duplicates_rows seen l'
      else r :: drop_duplicates_rows (cells r :: seen) l'
  end.

Definition drop_duplicates (df : DataFrame) : DataFrame :=
  mkDF (columns df) (drop_duplicates_rows [] (rows df)).

(** Modelled from the spec: [DataFrame.searchsorted(values, side="left")]
    is not under src/; for each row of [values] it gives the first
    position of the (sorted) frame whose row is not smaller. *)
Fixpoint lower_bound (ks : list key) (v : key) : nat :=
  match ks with
  | [] => 0
  | k :: ks' => if key_ltb k v then S (lower_bound ks' v) else 0
  end.

Definition searchsorted (df values : DataFrame) : list nat :=
  map (fun v => lower_bound (map cells (rows df)) (cells v)) (rows values).

(** [df.iloc[a:b]] for non-negative bounds. *)
Definition iloc (df : DataFrame) (a b : nat) : DataFrame :=
  mkDF (columns df) (skipn a (firstn b (rows df))).

(** Python truthiness of an optional flag: [None] and [False] are
    falsy. *)
Definition truthy (b : option bool) : bool :=
  match b with Some true => true | _ => false end.

(** [_get_partition_groups(df, partition_cols, preserve_index)].
    The shallow copies are the identity on values. *)
Definition _get_partition_groups (df : DataFrame) (partition_cols : list string)
    (preserve_index : option bool) : result (list DataFrame) :=
  (let? df := sort_values df partition_cols in
   let df := if negb (truthy preserve_index) then reset_index df else df in
   let? keys := getitem df partition_cols in
   let divisions := drop_duplicates keys in
   let splits := searchsorted keys divisions in
   let splits := splits ++ [len keys] in
   Ok (map (fun i => iloc df (nth i splits 0) (nth (i + 1) splits 0))
           (seq 0 (List.length splits - 1))))%result.

(** ** The world: directories, written files, identifiers, warnings *)

(** Extra positional and keyword arguments that are only passed on. *)
Inductive pyval : Type :=
| PNone
| PBool (b : bool)
| PInt (z : Z)
| PStr (s : string)
| PList (l : list string).

Definition extras : Type := list (string * pyval).

(** The filesystem collaborator: only its separator matters to path
    construction; [mkdirs] is an effect on the world. *)
Record FileSystem : Type := mkFS { sep : string }.

(** *** The native codec's file format (modelled from the spec, sections
    3 and 4.1 to 4.5: it is not under src/) *)

(** A column chunk: the values of one column in one row group, plain or
    dictionary encoded, with the identifier of its compression codec. *)
Inductive ColumnChunk : Type :=
| PlainChunk (codec : option string) (values : list scalar)
| DictChunk (codec : option string) (dict : list scalar) (indices : list nat).

Record RowGroup : Type := mkRowGroup {
  rg_num_rows : nat;
  rg_chunks : list ColumnChunk
}.

(** A file: the footer's schema, whether its first column is the
    recorded index, the statistics level, and the row groups. *)
Record ParquetFile : Type := mkFile {
  pf_schema : list (string * dtype);
  pf_index_column : bool;
  pf_statistics : string;
  pf_row_groups : list RowGroup
}.

Record RowGroupDesc : Type := mkRGD {
  rgd_num_rows : nat;
  rgd_file_path : option string
}.

Record FileMetadata : Type := mkMeta {
  md_schema : list (string * dtype);
  md_row_groups : list RowGroupDesc;
  md_file_path : option string
}.

(** The Arrow table handed to the CPU fallback. *)
Definition ArrowTable : Type := DataFrame.

(** [name in labels] *)
Definition mem (name : string) (labels : list string) : bool :=
  existsb (String.eqb name) labels.

(** *** Keyword dictionaries

    [write_to_dataset] and [to_parquet] hand their [**kwargs] to each
    other.  A dictionary is held as a record: a field for each keyword
    the model reads a typed value from, and a list of the entries under
    the other names ([kw_rest], [kw_extra]).

    Python binds a keyword that names a parameter to that parameter, so
    it never reaches [**kwargs].  An entry of the two lists is
    therefore under none of these names:
    - [engine], [compression], [statistics]: in the [**kwargs] of
      [write_to_dataset] the field holds the entry, and they are
      parameters of [to_parquet], whose [**kwargs] never has them;
    - [fs], [return_metadata]: the same with the two functions swapped;
    - [df], [partition_cols]: parameters of both functions.
    Every other name can be an entry, [index] and [preserve_index]
    among them.  The value under [metadata_file_path] is a string or
    [None]. *)
Definition bound_names : list string :=
  ["engine"; "compression"; "statistics"; "fs"; "return_metadata";
   "df"; "partition_cols"].

Definition keyword_ok (name : string) (value : pyval) : bool :=
  negb (mem name bound_names) &&
  (if String.eqb name "metadata_file_path"
   then match value with PNone | PStr _ => true | _ => false end
   else true).

Record keyword : Type := mkKeyword {
  kw_name : string;
  kw_value : pyval;
  kw_ok : keyword_ok kw_name kw_value = true
}.

Definition keywords : Type := list keyword.

(** [name in kwargs] *)
Definition given (name : string) (kwargs : keywords) : bool :=
  existsb (fun k => String.eqb (kw_name k) name) kwargs.

(** [kwargs.get(name)] *)
Definition keyword_value (name : string) (kwargs : keywords) : option pyval :=
  option_map kw_value (find (fun k => String.eqb (kw_name k) name) kwargs).

(** The entries of [kwargs] under other names than [name]. *)
Definition without_keyword (name : string) (kwargs : keywords) : keywords :=
  filter (fun k => negb (String.eqb (kw_name k) name)) kwargs.

(** The [**kwargs] of [write_to_dataset]: the keywords [to_parquet]
    names and the model reads, when present, and the rest. *)
Record writer_kwargs : Type := mkKw {
  kw_engine : option string;
  kw_compression : option (option string);
  kw_statistics : option string;
  kw_rest : keywords
}.

(** The [**kwargs] of [to_parquet]: the keywords [write_to_dataset]
    names and the model reads, when present, and the rest. *)
Record dataset_kwargs : Type := mkDkw {
  kw_fs : option FileSystem;
  kw_return_metadata : option bool;
  kw_extra : keywords
}.

Inductive write_event : Type :=
| NativeWrite (path : string) (file : ParquetFile)
| ArrowWrite (table : ArrowTable) (path : string)
    (partition_cols : option (list string)) (args : list pyval)
    (kwargs : dataset_kwargs).

Record World : Type := mkWorld {
  dirs : list string;
  written : list write_event;
  guids : nat;
  warnings : list string
}.

(** What the module is given: [guid n] is the n-th identifier
    [pyarrow.compat.guid] hands out; [get_fs_token_paths] is fsspec's;
    [get_filepath_or_buffer] is [ioutils.get_filepath_or_buffer], which
    is not under src/ and gives the resolved path or buffer and the
    content encoding; [pq_read_pandas] is pyarrow's reader;
    [pq_write_to_dataset] is the body of pyarrow's dataset writer, which
    may raise and returns nothing; the last field is the row-group size
    of the native writer. *)
Record Env : Type := mkEnv {
  guid : nat -> string;
  get_fs_token_paths : string -> FileSystem;
  get_filepath_or_buffer : string -> extras -> string * option string;
  pq_read_pandas :
    World -> string -> option (list string) -> list pyval -> extras ->
    result ArrowTable;
  pq_write_to_dataset :
    World -> ArrowTable -> string -> option (list string) ->
    dataset_kwargs -> result unit;
  row_group_size_rows : positive
}.

(** ** A state and exception monad: effects done before a raise stay *)

Definition M (A : Type) : Type := World -> result A * World.

Definition ret {A} (a : A) : M A := fun w => (Ok a, w).

Definition raise {A} (e : exn) : M A := fun w => (Raise e, w).

Definition bind {A B} (m : M A) (f : A -> M B) : M B :=
  fun w =>
    match m w with
    | (Ok a, w') => f a w'
    | (Raise e, w') => (Raise e, w')
    end.

Definition lift {A} (r : result A) : M A := fun w => (r, w).

Declare Scope io_scope.
Delimit Scope io_scope with io.
Notation "x <- m ;; k" := (bind m (fun x => k))
  (at level 61, m at next level, right associativity) : io_scope.
Notation "m ;;; k" := (bind m (fun _ => k))
  (at level 61, right associativity) : io_scope.

(** [fs.mkdirs(path, exist_ok=True)] *)
Definition mkdirs (path : string) : M unit :=
  fun w => (Ok tt, mkWorld (dirs w ++ [path]) (written w) (guids w) (warnings w)).

Definition log_write (e : write_event) : M unit :=
  fun w => (Ok tt, mkWorld (dirs w) (written w ++ [e]) (guids w) (warnings w)).

(** [warnings.warn(msg)] *)
Definition warn (msg : string) : M unit :=
  fun w => (Ok tt, mkWorld (dirs w) (written w) (guids w) (warnings w ++ [msg])).

(** [fs.sep.join(parts)] *)
Definition sep_join (fs : FileSystem) (parts : list string) : string :=
  String.concat (sep fs) parts.

(** ** Dataframe helpers used by the writer *)

(** Modelled from its documented behaviour: [Index.drop(labels)] is
    not under src/ ([df.columns] is a pandas index); it removes the
    labels and, when some are absent, raises one [KeyError] that names
    all the absent labels, in the order given. *)
Definition index_drop (names : list string) (labels : list string)
  : result (list string) :=
  match filter (fun l => negb (mem l names)) labels with
  | [] => Ok (filter (fun n => negb (mem n labels)) names)
  | absent => Raise (KeyErrorLabels absent)
  end.

(** The cells of a row whose column survives [keep]. *)
Fixpoint drop_cells (keep : list bool) (cs : list scalar) : list scalar :=
  match keep, cs with
  | k :: keep', c :: cs' =>
      if k then c :: drop_cells keep' cs' else drop_cells keep' cs'
  | _, _ => []
  end.

(** The frame without the columns named in [labels]. *)
Definition without_columns (df : DataFrame) (labels : list string) : DataFrame :=
  let keep := map (fun c => negb (mem (fst c) labels)) (columns df) in
  mkDF (filter (fun c => negb (mem (fst c) labels)) (columns df))
       (map (fun r => mkRow (label r) (drop_cells keep (cells r))) (rows df)).

(** Modelled from the spec: [DataFrame.drop(columns=labels)] is not
    under src/; it removes the named columns and raises [KeyError] for
    a label that is absent. *)
Definition drop_columns (df : DataFrame) (labels : list string)
  : result DataFrame :=
  (let? _ := index_drop (column_names df) labels in
   Ok (without_columns df labels))%result.

(** [df[col].iloc[0]] *)
Definition first_value (df : DataFrame) (col : string) : result scalar :=
  match col_index col (columns df) with
  | None => Raise (KeyError col)
  | Some i =>
      match rows df with
      | [] => Raise IndexError
      | r :: _ => Ok (nth i (cells r) SNull)
      end
  end.

(** [tuple([sub_df[col].iloc[0] for col in partition_cols])] *)
Fixpoint first_values (df : DataFrame) (cols : list string) : result key :=
  match cols with
  | [] => Ok []
  | c :: cols' =>
      (let? v := first_value df c in
       let? vs := first_values df cols' in
       Ok (v :: vs))%result
  end.

(** ["{colname}={value}".format(colname=name, value=val)] over
    [zip(partition_cols, keys)] *)
Definition segments (partition_cols : list string) (keys : key) : list string :=
  map (fun '(name, val) => (name ++ "=" ++ format_value val)%string)
      (combine partition_cols keys).

(** [df[col].dtype.name == "category"] *)
Definition is_category (c : string * dtype) : bool :=
  String.eqb (dtype_name (snd c)) "category".

(** The loop [for col in df.columns] finds a categorical column. *)
Definition has_category (df : DataFrame) : bool :=
  existsb is_category (columns df).

(** Modelled from the spec: [DataFrame.to_arrow] and
    [DataFrame.from_arrow] are not under src/; section 6 has the CPU
    fallback "accept/produce the same Table model", so the Arrow table
    is the frame, without its index when it is not preserved. *)
Definition to_arrow (df : DataFrame) (preserve_index : bool) : ArrowTable :=
  if preserve_index then df else reset_index df.

Definition from_arrow (t : ArrowTable) : DataFrame := t.

(** ** The native codec (modelled from the spec: [cudf._lib.parquet]
    is not under src/) *)

Definition scalar_eqb : scalar -> scalar -> bool := cmp_eqb scalar_compare.

(** Modelled from the spec: section 4.1, the dictionary of a chunk
    stores its distinct values once, here first occurrences in order,
    and each row its index there. *)
Fixpoint distinct_values (seen : list scalar) (vs : list scalar) : list scalar :=
  match vs with
  | [] => []
  | v :: vs' =>
      if existsb (scalar_eqb v) seen then distinct_values seen vs'
      else v :: distinct_values (v :: seen) vs'
  end.

Fixpoint index_of (v : scalar) (dict : list scalar) : nat :=
  match dict with
  | [] => 0
  | x :: dict' => if scalar_eqb x v then 0 else S (index_of v dict')
  end.

(** Modelled from the spec: section 4.1, "choose dictionary encoding
    when the count of distinct values in the chunk is below a
    configurable fraction of row count (default heuristic:
    distinct/total < 0.5); else plain encoding"; the codec identifier is
    stored alongside. *)
Definition encode (codec : option string) (values : list scalar) : ColumnChunk :=
  let dict := distinct_values [] values in
  if (2 * List.length dict <? List.length values)%nat
  then DictChunk codec dict (map (fun v => index_of v dict) values)
  else PlainChunk codec values.

(** Modelled from the spec: section 4.3, the codecs the writer options
    enumerate are none, snappy and gzip. *)
Definition known_codec (codec : option string) : bool :=
  match codec with
  | None => true
  | Some c => String.eqb c "snappy" || String.eqb c "gzip"
  end.

(** Modelled from the spec: section 4.1, decode "fails with
    CorruptChunk if the stored codec identifier is unrecognized". *)
Definition decode (c : ColumnChunk) : result (list scalar) :=
  match c with
  | PlainChunk codec values =>
      if known_codec codec then Ok values else Raise CorruptChunk
  | DictChunk codec dict indices =>
      if known_codec codec && forallb (fun i => (i <? List.length dict)%nat) indices
      then Ok (map (fun i => nth i dict SNull) indices)
      else Raise CorruptChunk
  end.

Fixpoint map_result {A B} (f : A -> result B) (l : list A) : result (list B) :=
  match l with
  | [] => Ok []
  | a :: l' =>
      (let? b := f a in
       let? bs := map_result f l' in
       Ok (b :: bs))%result
  end.

(** Modelled from the spec: section 4.2, one chunk per schema column
    over the rows of the group, with the row count. *)
Definition assemble (width : nat) (codec : option string)
    (rs : list (list scalar)) : RowGroup :=
  mkRowGroup (List.length rs)
    (map (fun j => encode codec (map (fun r => nth j r SNull) rs))
         (seq 0 width)).

(** Modelled from the spec: section 4.4, the reader drives the chunk
    codec in reverse and puts the columns back into rows. *)
Definition disassemble (g : RowGroup) : result (list (list scalar)) :=
  (let? cols := map_result decode (rg_chunks g) in
   Ok (map (fun i => map (fun col => nth i col SNull) cols)
           (seq 0 (rg_num_rows g))))%result.

(** Modelled from the spec: section 4.3, rows are buffered "until
    rowGroupSizeRows reached", and close "flushes any remainder (even
    if smaller than the target)". *)
Fixpoint row_group_slices {A} (fuel size : nat) (l : list A) : list (list A) :=
  match fuel with
  | 0 => []
  | S fuel' =>
      match l with
      | [] => []
      | _ :: _ => firstn size l :: row_group_slices fuel' size (skipn size l)
      end
  end.

Definition index_column_name : string := "__index_level_0__".

(** Modelled from the spec: section 4.4, the footer may record an
    index column; the writer stores the index as a leading column
    unless [index] is [False]. *)
Definition stored_schema (df : DataFrame) (index : option bool)
  : list (string * dtype) :=
  match index with
  | Some false => columns df
  | _ => (index_column_name, Int64) :: columns df
  end.

Definition stored_rows (df : DataFrame) (index : option bool)
  : list (list scalar) :=
  match index with
  | Some false => map cells (rows df)
  | _ => map (fun r => SInt (label r) :: cells r) (rows df)
  end.

Definition stores_index (index : option bool) : bool :=
  match index with Some false => false | _ => true end.

(** Modelled from the spec: sections 3 and 4.3, the writer assembles
    the row groups and writes the footer last. *)
Definition parquet_file (env : Env) (df : DataFrame) (index : option bool)
    (compression : option string) (statistics : string) : ParquetFile :=
  let schema := stored_schema df index in
  let rs := stored_rows df index in
  mkFile schema (stores_index index) statistics
    (map (assemble (List.length schema) compression)
         (row_group_slices (List.length rs)
            (Pos.to_nat (row_group_size_rows env)) rs)).

(** Modelled from the spec: section 3, the metadata of a file: its
    schema, one descriptor per row group, and [metadata_file_path]
    embedded. *)
Definition file_metadata (f : ParquetFile) (metadata_file_path : option string)
  : FileMetadata :=
  mkMeta (pf_schema f)
         (map (fun g => mkRGD (rg_num_rows g) None) (pf_row_groups f))
         metadata_file_path.

(** Modelled from the spec: section 4.3, [libparquet.write_parquet]
    writes the file and returns its metadata. *)
Definition libparquet_write_parquet (env : Env) (df : DataFrame) (path : string)
    (index : option bool) (compression : option string) (statistics : string)
    (metadata_file_path : option string) : M (option FileMetadata) :=
  let f := parquet_file env df index compression statistics in
  (log_write (NativeWrite path f) ;;;
   ret (Some (file_metadata f metadata_file_path)))%io.

(** The file last written at [path]. *)
Definition find_file (path : string) (evs : list write_event)
  : option ParquetFile :=
  fold_left
    (fun acc e =>
       match e with
       | NativeWrite p f => if String.eqb p path then Some f else acc
       | ArrowWrite _ _ _ _ _ => acc
       end)
    evs None.

(** Modelled from the spec: section 4.4, [row_group] and
    [row_group_count] select a contiguous range of row groups (default:
    all, and to the end when only [row_group] is set); a range beyond
    the footer's count is a [SchemaMismatch]. *)
Definition select_row_groups (gs : list RowGroup)
    (row_group row_group_count : option nat) : result (list RowGroup) :=
  let start := match row_group with Some i => i | None => 0 end in
  let count :=
    match row_group_count with
    | Some n => n
    | None => List.length gs - start
    end in
  if (start + count <=? List.length gs)%nat
  then Ok (firstn count (skipn start gs))
  else Raise SchemaMismatch.

(** Modelled from the spec: section 4.4, [skip_rows] and [num_rows]
    trim after the row groups are materialized; skipping past the end
    gives no rows. *)
Definition trim_rows {A} (skip_rows num_rows : option nat) (l : list A) : list A :=
  let l := match skip_rows with Some k => skipn k l | None => l end in
  match num_rows with Some n => firstn n l | None => l end.

(** Modelled from the spec: section 4.4, the recorded index becomes
    the labels when [use_pandas_metadata] asks for it; otherwise the
    labels are 0, 1, ... and every stored column is data. *)
Definition restore_index (restore : bool) (schema : list (string * dtype))
    (rs : list (list scalar)) : DataFrame :=
  if restore
  then mkDF (tl schema)
            (map (fun cs => mkRow (match hd SNull cs with
                                   | SInt z => z
                                   | _ => 0%Z
                                   end) (tl cs)) rs)
  else reset_index (mkDF schema (map (mkRow 0) rs)).

(** Modelled from the spec: section 4.4, column projection gives the
    requested columns in schema order, and [UnknownColumn] for a name
    the schema lacks. *)
Definition project_columns (df : DataFrame) (cols : option (list string))
  : result DataFrame :=
  match cols with
  | None => Ok df
  | Some names =>
      match find (fun n => negb (existsb (String.eqb n) (column_names df)))
                 names with
      | Some n => Raise (UnknownColumn n)
      | None =>
          let wanted c := existsb (String.eqb (fst c)) names in
          Ok (mkDF (filter wanted (columns df))
                   (map (fun r => mkRow (label r)
                                    (drop_cells (map wanted (columns df))
                                                (cells r)))
                        (rows df)))
      end
  end.

(** Modelled from the spec: section 4.4, with [strings_to_categorical]
    string columns come back categorical. *)
Definition to_categorical (df : DataFrame) : DataFrame :=
  mkDF (map (fun c => match snd c with
                      | Utf8 => (fst c, Category)
                      | _ => c
                      end) (columns df))
       (rows df).

(** Modelled from the spec: section 4.4, [libparquet.read_parquet]
    reads the file last written at the path. *)
Definition libparquet_read_parquet (w : World) (path : string)
    (cols : option (list string)) (row_group row_group_count : option nat)
    (skip_rows num_rows : option nat) (strings_to_categorical : bool)
    (use_pandas_metadata : bool) : result DataFrame :=
  match find_file path (written w) with
  | None => Raise (FileNotFoundError path)
  | Some f =>
      (let? gs := select_row_groups (pf_row_groups f) row_group row_group_count in
       let? rss := map_result disassemble gs in
       let rs := trim_rows skip_rows num_rows (concat rss) in
       let df := restore_index (use_pandas_metadata && pf_index_column f)
                               (pf_schema f) rs in
       let? df := project_columns df cols in
       Ok (if strings_to_categorical then to_categorical df else df))%result
  end.

Definition schema_eqb (a b : list (string * dtype)) : bool :=
  (List.length a =? List.length b)%nat &&
  forallb (fun '(x, y) =>
             String.eqb (fst x) (fst y) &&
             String.eqb (dtype_name (snd x)) (dtype_name (snd y)))
          (combine a b).

Definition annotate (m : FileMetadata) : list RowGroupDesc :=
  map (fun g => mkRGD (rgd_num_rows g) (md_file_path m)) (md_row_groups m).

(** Modelled from the spec: section 4.5, [libparquet.merge_filemetadata]
    is not under src/; all inputs share one schema or the merge fails
    with [SchemaMismatch]; the row groups are concatenated in input
    order, each annotated with the file path of the metadata it came
    from; a single-element list gives back its element.  An input that
    is [None] is a [TypeError]; the spec leaves the empty list open,
    and the module never merges one. *)
Definition libparquet_merge_filemetadata (l : list (option FileMetadata))
  : result FileMetadata :=
  (let? ms := map_result (fun o => match o with
                                   | Some m => Ok m
                                   | None => Raise TypeError
                                   end) l in
   match ms with
   | [] => Raise (ValueError "no metadata to merge")
   | [m] => Ok m
   | m :: _ =>
       if forallb (fun m' => schema_eqb (md_schema m) (md_schema m')) ms
       then Ok (mkMeta (md_schema m) (concat (map annotate ms)) None)
       else Raise SchemaMismatch
   end)%result.

(** ** The module *)

Definition default {A} (d : A) (o : option A) : A :=
  match o with Some a => a | None => d end.

Definition no_data_left : string :=
  "No data left to save outside partition columns".

Definition category_unsupported : string :=
  "'category' column dtypes are currently not supported by the gpu accelerated parquet writer".

(** The spec's names for the two errors the module raises itself. *)
Definition NoDataColumns : exn := ValueError no_data_left.
Definition UnsupportedCategoricalType : exn := ValueError category_unsupported.

Definition to_parquet_fn : Type :=
  DataFrame -> string -> string -> option string -> option bool ->
  option (list string) -> string -> option string -> list pyval ->
  dataset_kwargs -> M (option FileMetadata).

Definition write_to_dataset_fn : Type :=
  DataFrame -> string -> option (list string) -> option FileSystem ->
  option bool -> bool -> writer_kwargs -> M (option FileMetadata).

Section ParquetModule.
Variable env : Env.

(** [_ensure_filesystem(passed_filesystem, path)], for a path that is
    a string. *)
Definition _ensure_filesystem (passed_filesystem : option FileSystem)
    (path : string) : FileSystem :=
  match passed_filesystem with
  | None => get_fs_token_paths env path
  | Some fs => fs
  end.

(** [guid()] *)
Definition fresh_guid : M string :=
  fun w => (Ok (guid env (guids w)),
            mkWorld (dirs w) (written w) (S (guids w)) (warnings w)).

(** [merge_parquet_filemetadata(filemetadata_list)] *)
Definition merge_parquet_filemetadata (filemetadata_list : list (option FileMetadata))
  : result FileMetadata :=
  libparquet_merge_filemetadata filemetadata_list.

(** The value of a [metadata_file_path] keyword. *)
Definition path_of (value : option pyval) : option string :=
  match value with
  | Some (PStr s) => Some s
  | _ => None
  end.

(** The two calls of [write_to_dataset] to the frame's method:
    [df.to_parquet(path, index=index, **kwargs)] when
    [metadata_file_path] is [None], and
    [df.to_parquet(path, index=index, metadata_file_path=m, **kwargs)]
    when it is [Some m].  The method is
    [DataFrame.to_parquet(self, path, *args, **kwargs)], which hands
    over to the module's [to_parquet(self, path, *args, **kwargs)].

    An entry of [kwargs] under [index], or under [metadata_file_path]
    when the call gives that keyword, repeats a keyword of the call; an
    entry under [self] or [path] names a parameter the call gives by
    position.  Each is a [TypeError], raised before [to_parquet] runs.
    Otherwise the named parameters of [to_parquet] take their value
    from [kwargs] or their default, and the entries left over are its
    [**kwargs]. *)
Definition df_to_parquet (to_parquet : to_parquet_fn) (df : DataFrame)
    (path : string) (index : option bool) (metadata_file_path : option string)
    (kwargs : writer_kwargs) : M (option FileMetadata) :=
  let rest := kw_rest kwargs in
  if given "self" rest || given "path" rest || given "index" rest
     || (match metadata_file_path with Some _ => true | None => false end
         && given "metadata_file_path" rest)
  then raise TypeError
  else
    to_parquet df path
      (default "cudf" (kw_engine kwargs))
      (default (Some "snappy") (kw_compression kwargs))
      index None
      (default "ROWGROUP" (kw_statistics kwargs))
      (match metadata_file_path with
       | Some m => Some m
       | None => path_of (keyword_value "metadata_file_path" rest)
       end)
      [] (mkDkw None None (without_keyword "metadata_file_path" rest)).

(** The loop of [write_to_dataset] over the partition groups;
    [metadata] is the list built so far. *)
Fixpoint write_groups (to_parquet : to_parquet_fn) (fs : FileSystem)
    (root_path : string) (partition_cols : list string)
    (preserve_index : option bool) (return_metadata : bool)
    (kwargs : writer_kwargs) (groups : list DataFrame)
    (metadata : list (option FileMetadata))
  : M (list (option FileMetadata)) :=
  match groups with
  | [] => ret metadata
  | sub_df :: groups' =>
      if (len sub_df =? 0)%nat
      then write_groups to_parquet fs root_path partition_cols
             preserve_index return_metadata kwargs groups' metadata
      else
        (keys <- lift (first_values sub_df partition_cols) ;;
         let subdir := sep_join fs (segments partition_cols keys) in
         let prefix := sep_join fs [root_path; subdir] in
         mkdirs prefix ;;;
         g <- fresh_guid ;;
         let outfile := (g ++ ".parquet")%string in
         let full_path := sep_join fs [prefix; outfile] in
         write_df <- lift (drop_columns sub_df partition_cols) ;;
         if return_metadata
         then
           md <- df_to_parquet to_parquet write_df full_path preserve_index
                   (Some (sep_join fs [subdir; outfile])) kwargs ;;
           write_groups to_parquet fs root_path partition_cols
             preserve_index return_metadata kwargs groups' (metadata ++ [md])
         else
           df_to_parquet to_parquet write_df full_path preserve_index
             None kwargs ;;;
           write_groups to_parquet fs root_path partition_cols
             preserve_index return_metadata kwargs groups' metadata)%io
  end.

(** The last statement of [write_to_dataset]: nothing for an empty
    list, the element of a one-element list, the merge otherwise. *)
Definition return_merged (metadata : list (option FileMetadata))
  : M (option FileMetadata) :=
  match metadata with
  | [] => ret None
  | _ :: _ =>
      if (1 <? List.length metadata)%nat
      then (m <- lift (merge_parquet_filemetadata metadata) ;; ret (Some m))%io
      else ret (nth 0 metadata None)
  end.

(** The body of [write_to_dataset] between the creation of the root
    directory and the last statement: it gives the list [metadata]. *)
Definition collect_metadata (to_parquet : to_parquet_fn)
    (df : DataFrame) (root_path : string)
    (partition_cols : option (list string)) (fs : FileSystem)
    (preserve_index : option bool) (return_metadata : bool)
    (kwargs : writer_kwargs) : M (list (option FileMetadata)) :=
  match partition_cols with
  | Some ((_ :: _) as partition_cols) =>
      (data_cols <- lift (index_drop (column_names df) partition_cols) ;;
       if (List.length data_cols =? 0)%nat
       then raise (ValueError no_data_left)
       else
         groups <- lift (_get_partition_groups df partition_cols
                           preserve_index) ;;
         write_groups to_parquet fs root_path partition_cols
           preserve_index return_metadata kwargs groups [])%io
  | _ =>
      (g <- fresh_guid ;;
       let outfile := (g ++ ".parquet")%string in
       let full_path := sep_join fs [root_path; outfile] in
       if return_metadata
       then
         md <- df_to_parquet to_parquet df full_path preserve_index
                 (Some outfile) kwargs ;;
         ret [md]
       else
         df_to_parquet to_parquet df full_path preserve_index None
           kwargs ;;;
         ret [])%io
  end.

(** [write_to_dataset(df, root_path, partition_cols, fs,
    preserve_index, return_metadata, **kwargs)], over the
    [to_parquet] it calls. *)
Definition write_to_dataset_with (to_parquet : to_parquet_fn)
    (df : DataFrame) (root_path : string)
    (partition_cols : option (list string)) (fs : option FileSystem)
    (preserve_index : option bool) (return_metadata : bool)
    (kwargs : writer_kwargs) : M (option FileMetadata) :=
  let fs := _ensure_filesystem fs root_path in
  (mkdirs root_path ;;;
   metadata <- collect_metadata to_parquet df root_path partition_cols fs
                 preserve_index return_metadata kwargs ;;
   return_merged metadata)%io.

(** [if partition_cols:] *)
Definition nonempty (partition_cols : option (list string)) : bool :=
  match partition_cols with Some (_ :: _) => true | _ => false end.

(** [*args] is not empty. *)
Definition some_args (args : list pyval) : bool :=
  match args with [] => false | _ :: _ => true end.

(** [to_parquet(df, path, engine, compression, index, partition_cols,
    statistics, metadata_file_path, *args, **kwargs)], over the
    [write_to_dataset] it calls.

    The call [write_to_dataset(df, path, partition_cols=partition_cols,
    preserve_index=index, **kwargs)] is a [TypeError] when [kwargs] has
    an entry under [root_path], which the call gives by position, or
    under [preserve_index], which it gives by keyword.

    The call [pq.write_to_dataset(pa_table, path,
    partition_cols=partition_cols, *args, **kwargs)] is to pyarrow's
    [write_to_dataset(table, root_path, partition_cols=None, ...)]: a
    third positional argument is a second value for [partition_cols],
    and an entry of [kwargs] under [table] or [root_path] a second
    value for these, each a [TypeError] before the writer runs.  The
    writer returns nothing. *)
Definition to_parquet_with (write_to_dataset : write_to_dataset_fn)
    (df : DataFrame) (path : string) (engine : string)
    (compression : option string) (index : option bool)
    (partition_cols : option (list string)) (statistics : string)
    (metadata_file_path : option string) (args : list pyval)
    (kwargs : dataset_kwargs) : M (option FileMetadata) :=
  if String.eqb engine "cudf"
  then
    if nonempty partition_cols
    then
      if given "root_path" (kw_extra kwargs)
         || given "preserve_index" (kw_extra kwargs)
      then raise TypeError
      else
        (write_to_dataset df path partition_cols (kw_fs kwargs) index
           (default false (kw_return_metadata kwargs))
           (mkKw None None None (kw_extra kwargs)) ;;;
         ret None)%io
    else if has_category df
    then raise (ValueError category_unsupported)
    else libparquet_write_parquet env df path index compression statistics
           metadata_file_path
  else
    let index := match index with None => true | Some b => b end in
    let pa_table := to_arrow df index in
    if some_args args || given "table" (kw_extra kwargs)
       || given "root_path" (kw_extra kwargs)
    then raise TypeError
    else
      (log_write (ArrowWrite pa_table path partition_cols args kwargs) ;;;
       (fun w =>
          (pq_write_to_dataset env w pa_table path partition_cols kwargs, w)) ;;;
       ret None)%io.

(** The call [write_to_dataset] makes never sets [partition_cols]
    ([kwargs] cannot hold it: it is a parameter of [write_to_dataset]),
    so the [to_parquet] it reaches never calls back: the two functions
    are tied in two steps. *)
Definition no_dataset : write_to_dataset_fn :=
  fun _ _ _ _ _ _ _ => ret None.

Definition write_to_dataset : write_to_dataset_fn :=
  write_to_dataset_with (to_parquet_with no_dataset).

Definition to_parquet : to_parquet_fn :=
  to_parquet_with write_to_dataset.

(** [read_parquet(filepath_or_buffer, engine, columns, row_group,
    row_group_count, skip_rows, num_rows, strings_to_categorical,
    use_pandas_metadata, *args, **kwargs)] *)
Definition read_parquet (filepath_or_buffer : string) (engine : string)
    (cols : option (list string)) (row_group row_group_count : option nat)
    (skip_rows num_rows : option nat) (strings_to_categorical : bool)
    (use_pandas_metadata : bool) (args : list pyval) (kwargs : extras)
  : M DataFrame :=
  let '(filepath_or_buffer, compression) :=
    get_filepath_or_buffer env filepath_or_buffer kwargs in
  match compression with
  | Some _ =>
      raise (ValueError "URL content-encoding decompression is not supported")
  | None =>
      if String.eqb engine "cudf"
      then
        fun w =>
          (libparquet_read_parquet w filepath_or_buffer cols row_group
             row_group_count skip_rows num_rows strings_to_categorical
             use_pandas_metadata, w)
      else
        (warn "Using CPU via PyArrow to read Parquet dataset." ;;;
         fun w =>
           (rbind (pq_read_pandas env w filepath_or_buffer cols args kwargs)
                  (fun pa_table => Ok (from_arrow pa_table)), w))%io
  end.
End ParquetModule.

(** ** Definitions used to state and prove the properties *)

(** The list comprehension of [_get_partition_groups], read
    recursively: one slice per pair of neighbouring split points. *)
Fixpoint slices {A} (l : list A) (splits : list nat) : list (list A) :=
  match splits with
  | [] => []
  | a :: tl =>
      match tl with
      | [] => []
      | b :: _ => skipn a (firstn b l) :: slices l tl
      end
  end.

(** The split points of [_get_partition_groups] for the keys [ks] of
    the sorted frame and the distinct keys [ds]. *)
Definition splits_of (ks ds : list key) : list nat :=
  map (lower_bound ks) ds ++ [List.length ks].

(** Strictly increasing split points. *)
Definition increasing (splits : list nat) : Prop := StronglySorted lt splits.

Definition key_le (a b : key) : Prop := key_leb a b = true.
Definition key_lt (a b : key) : Prop := key_ltb a b = true.

(** Rows in non-decreasing order of their key at the positions [pos]. *)
Definition row_le (pos : list nat) (a b : Row) : Prop :=
  key_le (project pos a) (project pos b).

Definition sorted_by (pos : list nat) (l : list Row) : Prop :=
  StronglySorted (row_le pos) l.

(** *** What one write of the loop leaves behind *)

Section Effects.
Variable env : Env.

(** The engine a forwarded call selects. *)
Definition accelerated (kwargs : writer_kwargs) : bool :=
  String.eqb (default "cudf" (kw_engine kwargs)) "cudf".

(** No entry of [kwargs] repeats an argument of the inner call
    [df.to_parquet(full_path, index=..., metadata_file_path=...,
    **kwargs)]: [self] and [path], given by position, [index] and
    [metadata_file_path], given by keyword. *)
Definition repeats_nothing (kwargs : writer_kwargs) : bool :=
  negb (given "self" (kw_rest kwargs) || given "path" (kw_rest kwargs)
        || given "index" (kw_rest kwargs)
        || given "metadata_file_path" (kw_rest kwargs)).

(** Nor does an entry of [to_parquet]'s [kwargs] repeat an argument of
    its call of [write_to_dataset] ([root_path], [preserve_index]) or
    of the inner call. *)
Definition forwards_cleanly (kwargs : dataset_kwargs) : bool :=
  negb (given "root_path" (kw_extra kwargs)
        || given "preserve_index" (kw_extra kwargs))
  && repeats_nothing (mkKw None None None (kw_extra kwargs)).

(** The file the accelerated engine writes for
    [write_df.to_parquet(full_path, index=..., **kwargs)]. *)
Definition file_of (write_df : DataFrame) (index : option bool)
    (kwargs : writer_kwargs) : ParquetFile :=
  parquet_file env write_df index
    (default (Some "snappy") (kw_compression kwargs))
    (default "ROWGROUP" (kw_statistics kwargs)).

(** The event of that call on the accelerated path. *)
Definition written_by (write_df : DataFrame) (full_path : string)
    (index : option bool) (kwargs : writer_kwargs) : write_event :=
  NativeWrite full_path (file_of write_df index kwargs).

(** Its return value on the accelerated path. *)
Definition returned_by (write_df : DataFrame) (index : option bool)
    (metadata_file_path : option string) (kwargs : writer_kwargs)
  : option FileMetadata :=
  Some (file_metadata (file_of write_df index kwargs) metadata_file_path).

(** The subdirectory of a key, relative to the root. *)
Definition subdir_of (fs : FileSystem) (partition_cols : list string)
    (k : key) : string :=
  sep_join fs (segments partition_cols k).

(** The name of the n-th file. *)
Definition outfile_of (n : nat) : string := (guid env n ++ ".parquet")%string.

(** The path of the file of key [k], written as the n-th file. *)
Definition full_path_of (fs : FileSystem) (root_path : string)
    (partition_cols : list string) (k : key) (n : nat) : string :=
  sep_join fs [sep_join fs [root_path; subdir_of fs partition_cols k];
               outfile_of n].

(** The path relative to the root that goes into the metadata. *)
Definition relative_path_of (fs : FileSystem) (partition_cols : list string)
    (k : key) (n : nat) : string :=
  sep_join fs [subdir_of fs partition_cols k; outfile_of n].

Definition add_write (w : World) (e : write_event) : World :=
  mkWorld (dirs w) (written w ++ [e]) (guids w) (warnings w).

(** The event and the metadata of the group [g] of key [k], written
    as the n-th file. *)
Definition write_of (fs : FileSystem) (root_path : string)
    (partition_cols : list string) (preserve_index : option bool)
    (kwargs : writer_kwargs) (entry : nat * (DataFrame * key)) : write_event :=
  let '(n, (g, k)) := entry in
  written_by (without_columns g partition_cols)
    (full_path_of fs root_path partition_cols k n) preserve_index kwargs.

Definition metadata_of (fs : FileSystem) (partition_cols : list string)
    (preserve_index : option bool) (kwargs : writer_kwargs)
    (entry : nat * (DataFrame * key)) : option FileMetadata :=
  let '(n, (g, k)) := entry in
  returned_by (without_columns g partition_cols) preserve_index
    (Some (relative_path_of fs partition_cols k n)) kwargs.
End Effects.

(** A group of the loop: some rows, the schema [cols], one key. *)
Definition group_of_key (cols : list (string * dtype)) (pos : list nat)
    (g : DataFrame) (k : key) : Prop :=
  rows g <> [] /\ columns g = cols /\
  Forall (fun r => project pos r = k) (rows g).

(** A column is a data column when it is not a partition column. *)
Definition data_column (partition_cols : list string) (c : string * dtype) : Prop :=
  ~ In (fst c) partition_cols.

(** The path an event writes to. *)
Definition event_path (e : write_event) : string :=
  match e with
  | NativeWrite path _ => path
  | ArrowWrite _ path _ _ _ => path
  end.

(** Two runs have the same effect: they leave the same world, and
    either both return or both raise the same exception. *)
Definition same_effect {A B} (x : result A * World) (y : result B * World)
  : Prop :=
  snd x = snd y /\
  match fst x, fst y with
  | Ok _, Ok _ => True
  | Raise e, Raise e' => e = e'
  | _, _ => False
  end.

(** [len(sub_df) > 0] *)
Definition has_rows (df : DataFrame) : bool := negb (len df =? 0)%nat.
(** The spec's example table: [id = 1,2,3,4], [grp = x,y,x,y]. *)
Definition example_df : DataFrame :=
  mkDF [("id", Int64); ("grp", Utf8)]
       [mkRow 0 [SInt 1; SStr "x"]; mkRow 1 [SInt 2; SStr "y"];
        mkRow 2 [SInt 3; SStr "x"]; mkRow 3 [SInt 4; SStr "y"]].


(** A concrete environment: identifiers [f0], [f1], ..., a local
    filesystem with separator [/], paths passed through unchanged, an
    unavailable CPU reader, a CPU writer that succeeds, and row groups
    of two rows. *)
Definition nat_to_string (n : nat) : string :=
  NilZero.string_of_uint (Nat.to_uint n).

Definition local_fs : FileSystem := mkFS "/".

Definition example_env : Env :=
  mkEnv (fun n => ("f" ++ nat_to_string n)%string)
        (fun _ => local_fs)
        (fun p _ => (p, None))
        (fun _ p _ _ _ => Raise (FileNotFoundError p))
        (fun _ _ _ _ _ => Ok tt)
        2%positive.

Definition empty_world : World := mkWorld [] [] 0 [].

Definition no_kwargs : writer_kwargs := mkKw None None None [].
Definition no_dataset_kwargs : dataset_kwargs := mkDkw None None [].

(** A table whose only column is the partition column. *)
Definition only_key_df : DataFrame :=
  mkDF [("grp", Utf8)] [mkRow 0 [SStr "x"]; mkRow 1 [SStr "y"]].

(** A table with a single partition key. *)
Definition one_group_df : DataFrame :=
  mkDF [("id", Int64); ("grp", Utf8)]
       [mkRow 0 [SInt 1; SStr "x"]; mkRow 1 [SInt 2; SStr "x"]].

(** A table whose partition column is categorical. *)
Definition categorical_key_df : DataFrame :=
  mkDF [("id", Int64); ("grp", Category)]
       [mkRow 0 [SInt 1; SStr "x"]; mkRow 1 [SInt 2; SStr "y"]].

(** A table with a categorical data column. *)
Definition categorical_df : DataFrame :=
  mkDF [("id", Int64); ("grp", Utf8); ("kind", Category)]
       [mkRow 0 [SInt 1; SStr "x"; SStr "a"];
        mkRow 1 [SInt 2; SStr "y"; SStr "b"]].

Definition with_metadata : dataset_kwargs := mkDkw None (Some true) [].

(** Keyword arguments that repeat [index], which the inner call gives. *)
Definition index_kwargs : writer_kwargs :=
  mkKw None None None [mkKeyword "index" (PBool true) eq_refl].
(** ** Order facts *)

Section TotalCmpFacts.
Context {A : Type} (cmp : A -> A -> comparison) `{!TotalCmp cmp}.

Lemma cmp_refl a : cmp a a = Eq.
Proof. now apply cmp_eq. Qed.

Lemma cmp_ltb_irrefl a : cmp_ltb cmp a a = false.
Proof. unfold cmp_ltb. now rewrite cmp_refl. Qed.

Lemma cmp_ltb_trans a b c :
  cmp_ltb cmp a b = true -> cmp_ltb cmp b c = true -> cmp_ltb cmp a c = true.
Proof.
  unfold cmp_ltb. destruct (cmp a b) eqn:Hab; try discriminate.
  destruct (cmp b c) eqn:Hbc; try discriminate.
  now rewrite (cmp_trans _ _ _ Hab Hbc).
Qed.

Lemma cmp_ltb_asym a b : cmp_ltb cmp a b = true -> cmp_ltb cmp b a = false.
Proof.
  unfold cmp_ltb. rewrite (cmp_antisym (cmp:=cmp) a b).
  destruct (cmp a b); simpl; congruence.
Qed.

Lemma cmp_eqb_eq a b : cmp_eqb cmp a b = true <-> a = b.
Proof.
  unfold cmp_eqb. rewrite <- cmp_eq.
  destruct (cmp a b); split; congruence.
Qed.

Lemma cmp_eqb_refl a : cmp_eqb cmp a a = true.
Proof. now apply cmp_eqb_eq. Qed.

Lemma cmp_leb_ltb a b : cmp_leb cmp a b = negb (cmp_ltb cmp b a).
Proof.
  unfold cmp_leb, cmp_ltb. rewrite (cmp_antisym (cmp:=cmp) a b).
  now destruct (cmp a b).
Qed.

(** [a <= b] and [a <> b] give [a < b]. *)
Lemma cmp_leb_neq_ltb a b :
  cmp_leb cmp a b = true -> a <> b -> cmp_ltb cmp a b = true.
Proof.
  unfold cmp_leb, cmp_ltb. intros Hle Hne.
  destruct (cmp a b) eqn:E; try congruence.
  apply cmp_eq in E. contradiction.
Qed.

Lemma cmp_ltb_leb_trans a b c :
  cmp_leb cmp a b = true -> cmp_ltb cmp b c = true -> cmp_ltb cmp a c = true.
Proof.
  intros Hle Hlt. unfold cmp_leb in Hle.
  destruct (cmp a b) eqn:E; try discriminate.
  - apply cmp_eq in E. now subst.
  - apply cmp_ltb_trans with b; auto. unfold cmp_ltb. now rewrite E.
Qed.

Lemma cmp_leb_trans a b c :
  cmp_leb cmp a b = true -> cmp_leb cmp b c = true -> cmp_leb cmp a c = true.
Proof.
  intros Hab Hbc. rewrite cmp_leb_ltb in *.
  destruct (cmp_ltb cmp c a) eqn:E; auto.
  pose proof (cmp_ltb_leb_trans b c a) as H.
  rewrite cmp_leb_ltb in H.
  rewrite (H Hbc E) in Hab. discriminate.
Qed.
End TotalCmpFacts.

#[global] Instance lex_compare_total {A} (cmp : A -> A -> comparison)
  `{!TotalCmp cmp} : TotalCmp (lex_compare cmp).
Proof.
  constructor.
  - induction a as [|x a IH]; destruct b as [|y b]; simpl;
      try (split; congruence).
    destruct (cmp x y) eqn:E.
    + apply cmp_eq in E. subst. rewrite IH. split; congruence.
    + split; try discriminate. intros H; inversion H; subst.
      rewrite (cmp_refl cmp) in E. discriminate.
    + split; try discriminate. intros H; inversion H; subst.
      rewrite (cmp_refl cmp) in E. discriminate.
  - induction a as [|x a IH]; destruct b as [|y b]; simpl; auto.
    rewrite (cmp_antisym (cmp:=cmp) x y). destruct (cmp x y); simpl; auto.
  - induction a as [|x a IH]; destruct b as [|y b]; destruct c as [|z c];
      simpl; try congruence.
    destruct (cmp x y) eqn:Exy; try discriminate.
    + apply cmp_eq in Exy. subst y.
      destruct (cmp x z); try congruence. apply IH.
    + intros _. destruct (cmp y z) eqn:Eyz; try discriminate.
      * apply cmp_eq in Eyz. subst z. now rewrite Exy.
      * now rewrite (cmp_trans _ _ _ Exy Eyz).
Qed.

Lemma ascii_compare_refl a : Ascii.compare a a = Eq.
Proof. unfold Ascii.compare. apply N.compare_refl. Qed.

Lemma ascii_compare_trans a b c :
  Ascii.compare a b = Lt -> Ascii.compare b c = Lt -> Ascii.compare a c = Lt.
Proof.
  unfold Ascii.compare. rewrite !N.compare_lt_iff. apply N.lt_trans.
Qed.

Lemma string_compare_refl s : String.compare s s = Eq.
Proof. induction s; simpl; auto. now rewrite ascii_compare_refl. Qed.

Lemma string_compare_trans s t u :
  String.compare s t = Lt -> String.compare t u = Lt -> String.compare s u = Lt.
Proof.
  revert t u. induction s as [|a s IH]; destruct t as [|b t];
    destruct u as [|c u]; simpl; try congruence.
  destruct (Ascii.compare a b) eqn:Eab; try discriminate.
  - apply Ascii.compare_eq_iff in Eab. subst b.
    destruct (Ascii.compare a c); try congruence. apply IH.
  - intros _. destruct (Ascii.compare b c) eqn:Ebc; try discriminate.
    + apply Ascii.compare_eq_iff in Ebc. subst c. now rewrite Eab.
    + now rewrite (ascii_compare_trans _ _ _ Eab Ebc).
Qed.

#[global] Instance scalar_compare_total : TotalCmp scalar_compare.
Proof.
  constructor.
  - intros [|x|x] [|y|y]; simpl; try (split; congruence).
    + rewrite Z.compare_eq_iff. split; congruence.
    + split; [intros H; apply String.compare_eq_iff in H; congruence|].
      intros H; inversion H. apply string_compare_refl.
  - intros [|x|x] [|y|y]; simpl; auto.
    + apply Z.compare_antisym.
    + apply String.compare_antisym.
  - intros [|x|x] [|y|y] [|z|z]; simpl; try congruence.
    + rewrite !Z.compare_lt_iff. apply Z.lt_trans.
    + apply string_compare_trans.
Qed.

#[global] Instance key_compare_total : TotalCmp key_compare.
Proof. unfold key_compare. typeclasses eauto. Qed.

Example example_groups :
  _get_partition_groups example_df ["grp"] None =
  Ok [mkDF [("id", Int64); ("grp", Utf8)]
           [mkRow 0 [SInt 1; SStr "x"]; mkRow 1 [SInt 3; SStr "x"]];
      mkDF [("id", Int64); ("grp", Utf8)]
           [mkRow 2 [SInt 2; SStr "y"]; mkRow 3 [SInt 4; SStr "y"]]].
Proof. reflexivity. Qed.

(** ** Lists: slices of a list at split points *)

Lemma last_cons_default {A} (b : A) tl a : last (b :: tl) a = last tl b.
Proof.
  revert a b. induction tl as [|c tl IH]; intros a b; [reflexivity|].
  change (last (b :: c :: tl) a) with (last (c :: tl) a).
  now rewrite !IH.
Qed.

Lemma sorted_le_last b tl : Sorted le (b :: tl) -> b <= last tl b.
Proof.
  revert b. induction tl as [|c tl IH]; intros b Hs; simpl; auto.
  apply Sorted_inv in Hs. destruct Hs as [Hs Hhd]. apply HdRel_inv in Hhd.
  specialize (IH c Hs).
  change (match tl with [] => c | _ :: _ => last tl b end) with (last (c :: tl) b).
  rewrite last_cons_default. lia.
Qed.

Section Slices.
Context {A : Type}.
Implicit Types (l : list A) (splits : list nat).

Lemma slices_comprehension l splits :
  map (fun i => skipn (nth i splits 0) (firstn (nth (i + 1) splits 0) l))
      (seq 0 (List.length splits - 1))
  = slices l splits.
Proof.
  induction splits as [|a tl IH]; [reflexivity|].
  destruct tl as [|b tl']; [reflexivity|].
  change (slices l (a :: b :: tl'))
    with (skipn a (firstn b l) :: slices l (b :: tl')).
  rewrite <- IH.
  replace (List.length (a :: b :: tl') - 1)
    with (S (List.length (b :: tl') - 1)) by (simpl; lia).
  rewrite <- cons_seq, <- seq_shift, map_cons, map_map. reflexivity.
Qed.

Lemma skipn_firstn_glue l a b z :
  a <= b -> b <= z ->
  skipn a (firstn b l) ++ skipn b (firstn z l) = skipn a (firstn z l).
Proof.
  intros Hab Hbz.
  set (m := firstn z l).
  assert (Hb : firstn b l = firstn b m).
  { unfold m. rewrite firstn_firstn. f_equal. lia. }
  rewrite Hb.
  rewrite <- (firstn_skipn b m) at 3.
  rewrite skipn_app.
  f_equal.
  destruct (Nat.le_gt_cases a (List.length (firstn b m))) as [Hle|Hgt].
  - replace (a - List.length (firstn b m)) with 0 by lia. reflexivity.
  - assert (Hm : List.length m < b).
    { rewrite length_firstn in Hgt. lia. }
    rewrite (skipn_all2 m) by lia. now rewrite skipn_nil.
Qed.

(** Neighbouring slices of non-decreasing split points glue back to
    the stretch between the first and the last point. *)
Lemma concat_slices l a tl :
  Sorted le (a :: tl) ->
  concat (slices l (a :: tl)) = skipn a (firstn (last tl a) l).
Proof.
  revert a. induction tl as [|b tl IH]; intros a Hs.
  - simpl. rewrite skipn_firstn_comm, Nat.sub_diag. reflexivity.
  - pose proof (sorted_le_last _ _ Hs) as Hal.
    apply Sorted_inv in Hs. destruct Hs as [Hs Hhd].
    apply HdRel_inv in Hhd.
    change (concat (slices l (a :: b :: tl)))
      with (skipn a (firstn b l) ++ concat (slices l (b :: tl))).
    rewrite (IH b Hs), last_cons_default.
    apply skipn_firstn_glue; auto.
    now apply sorted_le_last.
Qed.

Lemma slices_length l splits :
  List.length (slices l splits) = List.length splits - 1.
Proof.
  induction splits as [|a tl IH]; simpl; auto.
  destruct tl; simpl in *; auto. rewrite IH. lia.
Qed.

Lemma in_firstn (x : A) n l : In x (firstn n l) -> In x l.
Proof.
  intros H. rewrite <- (firstn_skipn n l). apply in_or_app. now left.
Qed.

Lemma in_skipn (x : A) n l : In x (skipn n l) -> In x l.
Proof.
  intros H. rewrite <- (firstn_skipn n l). apply in_or_app. now right.
Qed.

Lemma in_skipn_firstn (x : A) l a b :
  In x (skipn a (firstn b l)) -> In x (skipn a l) /\ In x (firstn b l).
Proof.
  intros H. split.
  - rewrite skipn_firstn_comm in H. now apply in_firstn in H.
  - now apply in_skipn in H.
Qed.
End Slices.

(** ** The order on keys *)

Lemma key_leb_total a b : key_leb a b = false -> key_leb b a = true.
Proof.
  unfold key_leb. rewrite (cmp_leb_ltb key_compare b a).
  unfold cmp_leb, cmp_ltb. now destruct (key_compare a b).
Qed.

Lemma key_le_trans a b c : key_le a b -> key_le b c -> key_le a c.
Proof. apply (cmp_leb_trans key_compare). Qed.

Lemma key_lt_trans a b c : key_lt a b -> key_lt b c -> key_lt a c.
Proof. apply (cmp_ltb_trans key_compare). Qed.

Lemma key_lt_irrefl a : ~ key_lt a a.
Proof.
  unfold key_lt, key_ltb. rewrite (cmp_ltb_irrefl key_compare). discriminate.
Qed.

Lemma key_lt_asym a b : key_lt a b -> ~ key_lt b a.
Proof.
  unfold key_lt, key_ltb. intros H.
  rewrite (cmp_ltb_asym key_compare _ _ H). discriminate.
Qed.

Lemma key_le_neq_lt a b : key_le a b -> a <> b -> key_lt a b.
Proof. apply (cmp_leb_neq_ltb key_compare). Qed.

Lemma key_le_lt_trans a b c : key_le a b -> key_lt b c -> key_lt a c.
Proof. apply (cmp_ltb_leb_trans key_compare). Qed.

Lemma key_eqb_eq a b : key_eqb a b = true <-> a = b.
Proof. apply (cmp_eqb_eq key_compare). Qed.

(** ** [sort_values]: a sorted permutation *)

Section Sorting.
Variable pos : list nat.

Lemma insert_row_perm r l : Permutation (r :: l) (insert_row pos r l).
Proof.
  induction l as [|r' l IH]; simpl; auto.
  destruct (key_leb (project pos r) (project pos r')); auto.
  rewrite perm_swap. now constructor.
Qed.

Lemma sort_rows_perm l : Permutation l (sort_rows pos l).
Proof.
  induction l as [|r l IH]; simpl; auto.
  rewrite <- insert_row_perm. now constructor.
Qed.

Lemma insert_row_sorted r l :
  sorted_by pos l -> sorted_by pos (insert_row pos r l).
Proof.
  unfold sorted_by. induction 1 as [|r' l Hs IH Hall]; simpl.
  - repeat constructor.
  - destruct (key_leb (project pos r) (project pos r')) eqn:E.
    + constructor; [now constructor|].
      constructor; [exact E|].
      eapply Forall_impl; [|exact Hall].
      intros x Hx. unfold row_le in *. eapply key_le_trans; eauto.
    + constructor; auto.
      apply key_leb_total in E.
      rewrite Forall_forall. intros x Hx.
      apply (Permutation_in _ (Permutation_sym (insert_row_perm r l))) in Hx.
      destruct Hx as [<-|Hx]; [exact E|].
      rewrite Forall_forall in Hall. now apply Hall.
Qed.

Lemma sort_rows_sorted l : sorted_by pos (sort_rows pos l).
Proof.
  induction l as [|r l IH]; simpl.
  - constructor.
  - now apply insert_row_sorted.
Qed.

End Sorting.

Lemma sorted_by_keys pos l :
  sorted_by pos l -> StronglySorted key_le (map (project pos) l).
Proof.
  induction 1 as [|r l Hs IH Hall]; simpl; constructor; auto.
  rewrite Forall_map. exact Hall.
Qed.

(** ** [searchsorted]: the lower bound in a sorted list of keys *)

Lemma filter_none {A} (p : A -> bool) l :
  (forall x, In x l -> p x = false) -> filter p l = [].
Proof.
  induction l as [|a l IH]; simpl; intros H; auto.
  rewrite (H a) by auto. apply IH. intros x Hx. apply H. auto.
Qed.

Lemma filter_everything {A} (l : list A) : filter (fun _ => true) l = l.
Proof. induction l; simpl; congruence. Qed.

Section LowerBound.
Implicit Types (ks : list key) (v : key).

Lemma lower_bound_le ks v : lower_bound ks v <= List.length ks.
Proof.
  induction ks as [|k ks IH]; simpl; auto.
  destruct (key_ltb k v); simpl; lia.
Qed.

Lemma lower_bound_below ks v :
  Forall (fun k => key_lt k v) (firstn (lower_bound ks v) ks).
Proof.
  induction ks as [|k ks IH]; simpl; auto.
  destruct (key_ltb k v) eqn:E; simpl; auto.
Qed.

Lemma lower_bound_above ks v :
  StronglySorted key_le ks ->
  Forall (fun k => key_ltb k v = false) (skipn (lower_bound ks v) ks).
Proof.
  induction 1 as [|k ks Hs IH Hall]; simpl; auto.
  destruct (key_ltb k v) eqn:E; simpl; auto.
  constructor; auto.
  eapply Forall_impl; [|exact Hall].
  intros x Hx. destruct (key_ltb x v) eqn:Ex; auto.
  pose proof (key_le_lt_trans _ _ _ Hx Ex) as Hkv.
  unfold key_lt in Hkv. congruence.
Qed.

(** In a sorted list the lower bound counts the smaller keys. *)
Lemma lower_bound_count ks v :
  StronglySorted key_le ks ->
  lower_bound ks v = List.length (filter (fun k => key_ltb k v) ks).
Proof.
  induction 1 as [|k ks Hs IH Hall]; simpl; auto.
  destruct (key_ltb k v) eqn:E; simpl; auto.
  rewrite filter_none; [reflexivity|]. intros x Hx.
  rewrite Forall_forall in Hall. specialize (Hall x Hx).
  destruct (key_ltb x v) eqn:Ex; auto.
  pose proof (key_le_lt_trans _ _ _ Hall Ex) as Hkv.
  unfold key_lt in Hkv. congruence.
Qed.

Lemma filter_length_lt {A} (p q : A -> bool) (l : list A) y :
  (forall x, p x = true -> q x = true) ->
  In y l -> q y = true -> p y = false ->
  List.length (filter p l) < List.length (filter q l).
Proof.
  intros Hpq Hy Hq Hp.
  induction l as [|x l IH]; [destruct Hy|].
  assert (Hle : forall l', List.length (filter p l') <= List.length (filter q l')).
  { induction l' as [|z l' IHl]; simpl; auto.
    destruct (p z) eqn:Ez.
    - rewrite (Hpq _ Ez). simpl. lia.
    - destruct (q z); simpl; lia. }
  simpl. destruct Hy as [->|Hy].
  - rewrite Hp, Hq. simpl. specialize (Hle l). lia.
  - specialize (IH Hy). destruct (p x) eqn:Ex.
    + rewrite (Hpq _ Ex). simpl. lia.
    + destruct (q x); simpl; lia.
Qed.

Lemma lower_bound_mono ks d d' :
  StronglySorted key_le ks -> In d ks -> key_lt d d' ->
  lower_bound ks d < lower_bound ks d'.
Proof.
  intros Hs Hin Hlt. rewrite !lower_bound_count by assumption.
  apply filter_length_lt with (y := d); auto.
  - intros x Hx. eapply key_lt_trans; eauto.
  - destruct (key_ltb d d) eqn:E; auto. now apply key_lt_irrefl in E.
Qed.

Lemma lower_bound_in ks d :
  StronglySorted key_le ks -> In d ks ->
  lower_bound ks d < List.length ks.
Proof.
  intros Hs Hin. rewrite lower_bound_count by assumption.
  rewrite <- (filter_everything ks) at 2.
  apply filter_length_lt with (y := d); auto.
  destruct (key_ltb d d) eqn:E; auto. now apply key_lt_irrefl in E.
Qed.

Lemma lower_bound_head k ks : lower_bound (k :: ks) k = 0.
Proof.
  simpl. destruct (key_ltb k k) eqn:E; auto. now apply key_lt_irrefl in E.
Qed.
End LowerBound.

(** ** [drop_duplicates]: the distinct keys, first occurrences in order *)

Section Distinct.
Implicit Types (l : list Row) (seen : list key).

Lemma seen_spec (k : key) seen :
  existsb (key_eqb k) seen = true <-> In k seen.
Proof.
  rewrite existsb_exists. split.
  - intros [x [Hx E]]. apply key_eqb_eq in E. now subst.
  - intros H. exists k. split; auto. now apply key_eqb_eq.
Qed.

Lemma drop_duplicates_in seen l k :
  In k (map cells (drop_duplicates_rows seen l)) <->
  In k (map cells l) /\ ~ In k seen.
Proof.
  revert seen. induction l as [|r l IH]; intros seen; simpl.
  - tauto.
  - destruct (existsb (key_eqb (cells r)) seen) eqn:E.
    + apply seen_spec in E. rewrite IH. split.
      * tauto.
      * intros [[<-|H] Hn]; tauto.
    + assert (Hr : ~ In (cells r) seen).
      { intros H. apply seen_spec in H. congruence. }
      simpl. rewrite IH. simpl. split.
      * intros [<-|[H Hn]]; [tauto|]. split; [tauto|]. intros H'. apply Hn. auto.
      * intros [[<-|H] Hn]; [tauto|].
        destruct (key_eqb (cells r) k) eqn:Ek;
          [apply key_eqb_eq in Ek; tauto|].
        assert (Hne : cells r <> k).
        { intros Heq. apply key_eqb_eq in Heq. congruence. }
        right. split; auto. intros [H'|H']; auto.
Qed.

Lemma drop_duplicates_nodup seen l :
  NoDup (map cells (drop_duplicates_rows seen l)).
Proof.
  revert seen. induction l as [|r l IH]; intros seen; simpl.
  - constructor.
  - destruct (existsb (key_eqb (cells r)) seen) eqn:E; auto.
    simpl. constructor; auto.
    rewrite drop_duplicates_in. simpl. tauto.
Qed.

Lemma drop_duplicates_sorted seen l :
  StronglySorted key_le (map cells l) ->
  StronglySorted key_le (map cells (drop_duplicates_rows seen l)).
Proof.
  revert seen. induction l as [|r l IH]; intros seen Hs; simpl.
  - constructor.
  - simpl in Hs. apply StronglySorted_inv in Hs. destruct Hs as [Hs Hall].
    destruct (existsb (key_eqb (cells r)) seen); auto.
    simpl. constructor; auto.
    rewrite Forall_forall in *. intros k Hk.
    apply drop_duplicates_in in Hk. apply Hall. tauto.
Qed.
End Distinct.

Lemma sorted_nodup_strict (ks : list key) :
  StronglySorted key_le ks -> NoDup ks -> StronglySorted key_lt ks.
Proof.
  induction 1 as [|k ks Hs IH Hall]; intros Hnd; constructor.
  - apply IH. now inversion Hnd.
  - inversion Hnd as [|? ? Hnotin Hnd']; subst.
    rewrite Forall_forall in *. intros x Hx.
    apply key_le_neq_lt; auto. intros ->. contradiction.
Qed.

Lemma strongly_sorted_app {A} (R : A -> A -> Prop) l1 l2 :
  StronglySorted R (l1 ++ l2) ->
  StronglySorted R l2 /\ (forall x y, In x l1 -> In y l2 -> R x y).
Proof.
  induction l1 as [|a l1 IH]; simpl; intros Hs.
  - split; auto. intros x y [].
  - apply StronglySorted_inv in Hs. destruct Hs as [Hs Hall].
    destruct (IH Hs) as [H2 Hxy]. split; auto.
    intros x y [<-|Hx] Hy; auto.
    rewrite Forall_forall in Hall. apply Hall. apply in_or_app. now right.
Qed.

(** ** The groups: one run of equal keys per distinct key *)

Lemma slices_map {A B} (f : A -> B) (l : list A) splits :
  map (map f) (slices l splits) = slices (map f l) splits.
Proof.
  induction splits as [|a tl IH]; [reflexivity|].
  destruct tl as [|b tl']; [reflexivity|].
  change (slices l (a :: b :: tl'))
    with (skipn a (firstn b l) :: slices l (b :: tl')).
  change (slices (map f l) (a :: b :: tl'))
    with (skipn a (firstn b (map f l)) :: slices (map f l) (b :: tl')).
  rewrite map_cons, IH. f_equal.
  now rewrite firstn_map, skipn_map.
Qed.

Section Runs.
Variable ks : list key.
Hypothesis ks_sorted : StronglySorted key_le ks.

(** The slice that starts at the lower bound of a distinct key [d]
    and stops at the next split point holds exactly the keys equal to
    [d], and at least one. *)
Lemma run_of_key pre d ds b :
  StronglySorted key_lt (pre ++ d :: ds) ->
  (forall k, In k ks -> In k (pre ++ d :: ds)) ->
  In d ks ->
  b = hd (List.length ks) (map (lower_bound ks) ds) ->
  (forall d', In d' ds -> In d' ks) ->
  skipn (lower_bound ks d) (firstn b ks) <> [] /\
  Forall (fun k => k = d) (skipn (lower_bound ks d) (firstn b ks)).
Proof.
  intros Hstrict Hcover Hd Hb Hds.
  destruct (strongly_sorted_app _ _ _ Hstrict) as [Htail Hpre].
  apply StronglySorted_inv in Htail. destruct Htail as [Hds_sorted Hd_lt].
  rewrite Forall_forall in Hd_lt.
  assert (Hbound : lower_bound ks d < b /\ b <= List.length ks).
  { subst b. destruct ds as [|d' ds']; simpl.
    - split; auto. now apply lower_bound_in.
    - split; [|apply lower_bound_le].
      apply lower_bound_mono; auto. apply Hd_lt. now left. }
  split.
  - intros Hnil. apply (f_equal (@List.length key)) in Hnil.
    rewrite length_skipn, length_firstn in Hnil. simpl in Hnil. lia.
  - rewrite Forall_forall. intros x Hx.
    apply in_skipn_firstn in Hx. destruct Hx as [Hge Hlt].
    pose proof (@lower_bound_above ks d ks_sorted) as Habove.
    rewrite Forall_forall in Habove. specialize (Habove x Hge).
    assert (Hin : In x ks) by (now apply in_skipn in Hge).
    apply Hcover in Hin. apply in_app_or in Hin.
    destruct Hin as [Hin|[Heq|Hin]]; auto.
    + specialize (Hpre x d Hin (or_introl eq_refl)).
      unfold key_lt in Hpre. congruence.
    + exfalso. destruct ds as [|d' ds']; [destruct Hin|].
      simpl in Hb. subst b.
      pose proof (lower_bound_below ks d') as Hbelow.
      rewrite Forall_forall in Hbelow. specialize (Hbelow x Hlt).
      destruct Hin as [->|Hin].
      * now apply key_lt_irrefl in Hbelow.
      * apply StronglySorted_inv in Hds_sorted.
        destruct Hds_sorted as [_ Hd'_lt].
        rewrite Forall_forall in Hd'_lt.
        apply (key_lt_asym _ _ Hbelow). now apply Hd'_lt.
Qed.

Lemma runs_of_keys pre ds :
  StronglySorted key_lt (pre ++ ds) ->
  (forall k, In k ks -> In k (pre ++ ds)) ->
  (forall d, In d ds -> In d ks) ->
  Forall2 (fun g d => g <> [] /\ Forall (fun k => k = d) g)
          (slices ks (splits_of ks ds)) ds.
Proof.
  revert pre. induction ds as [|d ds IH]; intros pre Hstrict Hcover Hds.
  - constructor.
  - unfold splits_of.
    change (map (lower_bound ks) (d :: ds) ++ [List.length ks])
      with (lower_bound ks d :: splits_of ks ds).
    assert (Hstep : slices ks (lower_bound ks d :: splits_of ks ds) =
              skipn (lower_bound ks d)
                    (firstn (hd (List.length ks) (map (lower_bound ks) ds)) ks)
              :: slices ks (splits_of ks ds)).
    { unfold splits_of. destruct ds; reflexivity. }
    rewrite Hstep. constructor.
    + apply (@run_of_key pre d ds); auto.
      * apply Hds. now left.
      * intros d' Hd'. apply Hds. now right.
    + apply (IH (pre ++ [d])).
      * now rewrite <- app_assoc.
      * intros k Hk. rewrite <- app_assoc. now apply Hcover.
      * intros d' Hd'. apply Hds. now right.
Qed.

(** The split points are strictly increasing, start at 0 when there
    is a row, and end at the number of rows. *)
Lemma splits_increasing pre ds :
  StronglySorted key_lt (pre ++ ds) ->
  (forall d, In d ds -> In d ks) ->
  increasing (splits_of ks ds).
Proof.
  unfold increasing.
  revert pre. induction ds as [|d ds IH]; intros pre Hstrict Hds.
  - unfold splits_of. simpl. repeat constructor.
  - unfold splits_of.
    change (map (lower_bound ks) (d :: ds) ++ [List.length ks])
      with (lower_bound ks d :: splits_of ks ds).
    constructor.
    + apply (IH (pre ++ [d])).
      * now rewrite <- app_assoc.
      * intros d' Hd'. apply Hds. now right.
    + destruct (strongly_sorted_app _ _ _ Hstrict) as [Htail _].
      apply StronglySorted_inv in Htail. destruct Htail as [_ Hd_lt].
      rewrite Forall_forall in Hd_lt.
      unfold splits_of. apply Forall_app. split.
      * rewrite Forall_map, Forall_forall. intros d' Hd'.
        apply lower_bound_mono; auto. apply Hds. now left.
      * constructor; auto. apply lower_bound_in; auto. apply Hds. now left.
Qed.
End Runs.

Lemma forall2_map_left {A B C} (f : A -> B) (P : B -> C -> Prop) l l' :
  Forall2 P (map f l) l' -> Forall2 (fun a c => P (f a) c) l l'.
Proof.
  revert l'. induction l as [|a l IH]; intros l' H; inversion H; subst;
    constructor; auto.
Qed.

Lemma strongly_sorted_lt_le (l : list nat) : StronglySorted lt l -> Sorted le l.
Proof.
  intros H. apply StronglySorted_Sorted.
  induction H as [|a l Hs IH Hall]; constructor; auto.
  eapply Forall_impl; [|exact Hall]. intros; lia.
Qed.

(** What the sort, the distinct keys and the lower bounds give
    together, on the rows [rs] of the sorted frame and the rows
    [keyrows] of its projection on the partition columns. *)
Lemma partition_slices pos (rs keyrows : list Row) :
  StronglySorted key_le (map (project pos) rs) ->
  map cells keyrows = map (project pos) rs ->
  let ks := map cells keyrows in
  let dks := map cells (drop_duplicates_rows [] keyrows) in
  let splits := map (lower_bound ks) dks ++ [List.length keyrows] in
  splits <> [] /\
  increasing splits /\
  hd 0 splits = 0 /\
  last splits 0 = List.length rs /\
  concat (slices rs splits) = rs /\
  NoDup dks /\
  (forall k, In k dks <-> In k ks) /\
  Forall2 (fun g k => g <> [] /\ Forall (fun r => project pos r = k) g)
          (slices rs splits) dks.
Proof.
  intros Hsorted Hkeys ks dks splits.
  assert (Hlen : List.length keyrows = List.length rs).
  { apply (f_equal (@List.length key)) in Hkeys.
    now rewrite !length_map in Hkeys. }
  assert (Hlenks : List.length ks = List.length keyrows).
  { unfold ks. now rewrite length_map. }
  assert (Hks : StronglySorted key_le ks).
  { unfold ks. now rewrite Hkeys. }
  assert (Hnd : NoDup dks) by apply drop_duplicates_nodup.
  assert (Hcover : forall k, In k dks <-> In k ks).
  { intros k. unfold dks. rewrite drop_duplicates_in. simpl. tauto. }
  assert (Hstrict : StronglySorted key_lt dks).
  { apply sorted_nodup_strict; auto. now apply drop_duplicates_sorted. }
  assert (Hinc : increasing splits).
  { unfold splits. rewrite <- Hlenks.
    apply (@splits_increasing ks Hks [] dks); auto. intros d. apply Hcover. }
  assert (Hhd : hd 0 splits = 0).
  { unfold splits, dks, ks. destruct keyrows as [|r keyrows']; [reflexivity|].
    simpl drop_duplicates_rows. simpl map at 2.
    change (hd 0 (lower_bound (cells r :: map cells keyrows') (cells r) :: _))
      with (lower_bound (cells r :: map cells keyrows') (cells r)).
    apply lower_bound_head. }
  assert (Hlast : last splits 0 = List.length rs).
  { unfold splits. now rewrite last_last. }
  repeat split; auto; try (apply Hcover; assumption).
  - unfold splits. now destruct (map (lower_bound ks) dks).
  - destruct splits as [|a tl] eqn:Esplits.
    { unfold splits in Esplits. now destruct (map (lower_bound ks) dks). }
    simpl in Hhd. subst a.
    rewrite concat_slices by (now apply strongly_sorted_lt_le).
    rewrite last_cons_default in Hlast. rewrite Hlast.
    now rewrite firstn_all.
  - assert (H2 : Forall2 (fun g k => g <> [] /\ Forall (fun k' => k' = k) g)
                   (map (map (project pos)) (slices rs splits)) dks).
    { rewrite slices_map, <- Hkeys. fold ks.
      unfold splits. rewrite <- Hlenks.
      apply (@runs_of_keys ks Hks [] dks); auto.
      - intros k. apply Hcover.
      - intros k. apply Hcover. }
    apply forall2_map_left in H2.
    eapply Forall2_impl; [|exact H2].
    simpl. intros g k [Hne Hall]. split.
    + intros ->. now apply Hne.
    + now rewrite Forall_map in Hall.
Qed.

(** ** [_get_partition_groups] *)

Lemma col_index_some name cols :
  In name (map fst cols) -> exists i, col_index name cols = Some i.
Proof.
  induction cols as [|[n d] cols IH]; simpl; [tauto|].
  intros H. destruct (String.eqb n name) eqn:E; eauto.
  destruct H as [H|H]; [apply String.eqb_neq in E; contradiction|].
  destruct (IH H) as [i Hi]. rewrite Hi. simpl. eauto.
Qed.

Lemma col_indices_ok names cols :
  incl names (map fst cols) -> exists pos, col_indices names cols = Ok pos.
Proof.
  induction names as [|n names IH]; simpl; intros H; eauto.
  destruct (col_index_some n cols) as [i Hi]; [apply H; now left|].
  destruct IH as [pos Hpos]; [intros x Hx; apply H; now right|].
  rewrite Hi, Hpos. eauto.
Qed.

Lemma reset_rows_cells (l : list Row) s :
  map cells (map (fun '(i, r) => mkRow (Z.of_nat i) (cells r))
                 (combine (seq s (List.length l)) l))
  = map cells l.
Proof.
  revert s. induction l as [|r l IH]; intros s; simpl; auto.
  f_equal. apply IH.
Qed.

Lemma reset_index_cells df :
  map cells (rows (reset_index df)) = map cells (rows df).
Proof. apply reset_rows_cells. Qed.

Lemma project_cells pos (l l' : list Row) :
  map cells l = map cells l' -> map (project pos) l = map (project pos) l'.
Proof.
  revert l'. induction l as [|r l IH]; destruct l' as [|r' l']; simpl;
    try discriminate; auto.
  intros H. inversion H as [[Hc Hl]]. unfold project at 1 3. rewrite Hc.
  f_equal. now apply IH.
Qed.

Lemma length_cells (l l' : list Row) :
  map cells l = map cells l' -> List.length l = List.length l'.
Proof.
  intros H. apply (f_equal (@List.length _)) in H.
  now rewrite !length_map in H.
Qed.

(** The frame [_get_partition_groups] slices: the sorted frame, with
    the index reset unless it is to be preserved. *)
Lemma partition_groups_structure df partition_cols preserve_index pos :
  col_indices partition_cols (columns df) = Ok pos ->
  let sorted := mkDF (columns df) (sort_rows pos (rows df)) in
  let df1 := if negb (truthy preserve_index) then reset_index sorted
             else sorted in
  exists splits keys,
    _get_partition_groups df partition_cols preserve_index
      = Ok (map (mkDF (columns df)) (slices (rows df1) splits)) /\
    splits <> [] /\
    increasing splits /\
    hd 0 splits = 0 /\
    last splits 0 = len df /\
    concat (slices (rows df1) splits) = rows df1 /\
    NoDup keys /\
    (forall k, In k keys <-> In k (map (project pos) (rows df))) /\
    Forall2 (fun g k => g <> [] /\ Forall (fun r => project pos r = k) g)
            (slices (rows df1) splits) keys.
Proof.
  intros Hpos sorted df1.
  assert (Hcols : columns df1 = columns df).
  { unfold df1. now destruct (negb (truthy preserve_index)). }
  assert (Hcells : map cells (rows df1) = map cells (rows sorted)).
  { unfold df1. destruct (negb (truthy preserve_index)); auto.
    apply reset_index_cells. }
  set (keyrows := map (fun r => mkRow (label r) (project pos r)) (rows df1)).
  assert (Hkeys : map cells keyrows = map (project pos) (rows df1)).
  { unfold keyrows. now rewrite map_map. }
  assert (Hks : StronglySorted key_le (map (project pos) (rows df1))).
  { rewrite (project_cells pos _ _ Hcells).
    apply sorted_by_keys. apply sort_rows_sorted. }
  destruct (partition_slices pos (rows df1) keyrows Hks Hkeys)
    as (Hne & Hinc & Hhd & Hlast & Hconcat & Hnd & Hcover & Hruns).
  eexists _, _. split; [|split; [exact Hne|split; [exact Hinc|split;
    [exact Hhd|split; [|split; [exact Hconcat|split; [exact Hnd|split;
    [|exact Hruns]]]]]]]].
  - unfold _get_partition_groups, sort_values. rewrite Hpos. simpl rbind.
    fold sorted. fold df1.
    unfold getitem. rewrite Hcols, Hpos. simpl rbind.
    fold keyrows. f_equal.
    unfold drop_duplicates, searchsorted, len. simpl rows.
    rewrite (map_map cells (lower_bound (map cells keyrows))).
    rewrite <- slices_comprehension, map_map.
    apply map_ext. intros i. unfold iloc. now rewrite Hcols.
  - rewrite Hlast. unfold len.
    rewrite (length_cells _ _ Hcells). simpl.
    symmetry. apply Permutation_length. apply sort_rows_perm.
  - intros k. rewrite Hcover, Hkeys, (project_cells pos _ _ Hcells). simpl.
    split; apply Permutation_in; apply Permutation_map;
      [apply Permutation_sym|]; apply sort_rows_perm.
Qed.

Lemma groups_as_ilocs frame splits :
  splits <> [] ->
  let groups := map (mkDF (columns frame)) (slices (rows frame) splits) in
  List.length splits = S (List.length groups) /\
  groups = map (fun i => iloc frame (nth i splits 0) (nth (S i) splits 0))
               (seq 0 (List.length groups)).
Proof.
  intros Hne groups. unfold groups.
  rewrite length_map, slices_length.
  split; [destruct splits; simpl; [contradiction|lia]|].
  rewrite <- slices_comprehension, map_map.
  apply map_ext. intros i. unfold iloc.
  now rewrite Nat.add_1_r.
Qed.

(** C1: for a dataframe and a non-empty list of its columns,
    [_get_partition_groups] returns slices [splits(i) : splits(i+1)] of
    the frame sorted by the partition columns, at strictly increasing
    split points from 0 to the number of rows (so the slices are
    contiguous and pairwise disjoint); their concatenation is the
    sorted frame; there is exactly one group per distinct partition-key
    tuple of the data, and every row of a group carries the key of its
    group. *)
Theorem get_partition_groups_correct df partition_cols preserve_index :
  partition_cols <> [] ->
  incl partition_cols (column_names df) ->
  exists pos sorted frame groups splits keys,
    col_indices partition_cols (columns df) = Ok pos /\
    sort_values df partition_cols = Ok sorted /\
    Permutation (rows df) (rows sorted) /\
    sorted_by pos (rows sorted) /\
    frame = (if truthy preserve_index then sorted else reset_index sorted) /\
    map cells (rows frame) = map cells (rows sorted) /\
    _get_partition_groups df partition_cols preserve_index = Ok groups /\
    increasing splits /\
    hd 0 splits = 0 /\
    last splits 0 = len df /\
    List.length splits = S (List.length groups) /\
    groups = map (fun i => iloc frame (nth i splits 0) (nth (S i) splits 0))
                 (seq 0 (List.length groups)) /\
    concat (map rows groups) = rows frame /\
    NoDup keys /\
    (forall k, In k keys <-> exists r, In r (rows df) /\ project pos r = k) /\
    Forall2 (fun g k => rows g <> [] /\
                        Forall (fun r => project pos r = k) (rows g))
            groups keys.
Proof.
  intros _ Hincl.
  destruct (col_indices_ok partition_cols (columns df) Hincl) as [pos Hpos].
  destruct (partition_groups_structure df partition_cols preserve_index pos Hpos)
    as (splits & keys & Hgroups & Hne & Hinc & Hhd & Hlast & Hconcat & Hnd
        & Hcover & Hruns).
  set (sorted := mkDF (columns df) (sort_rows pos (rows df))) in *.
  set (frame := if truthy preserve_index then sorted else reset_index sorted).
  assert (Hframe : (if negb (truthy preserve_index) then reset_index sorted
                    else sorted) = frame).
  { unfold frame. now destruct (truthy preserve_index). }
  rewrite Hframe in *.
  assert (Hfcols : columns frame = columns df).
  { unfold frame. now destruct (truthy preserve_index). }
  rewrite <- Hfcols in Hgroups.
  destruct (groups_as_ilocs frame splits Hne) as [Hlen Hiloc].
  exists pos, sorted, frame,
    (map (mkDF (columns frame)) (slices (rows frame) splits)), splits, keys.
  split; [exact Hpos|].
  split; [unfold sort_values; now rewrite Hpos|].
  split; [apply sort_rows_perm|].
  split; [apply sort_rows_sorted|].
  split; [reflexivity|].
  split; [unfold frame; destruct (truthy preserve_index); auto;
          apply reset_index_cells|].
  split; [exact Hgroups|].
  split; [exact Hinc|].
  split; [exact Hhd|].
  split; [exact Hlast|].
  split; [exact Hlen|].
  split; [exact Hiloc|].
  split; [rewrite map_map; simpl; now rewrite map_id|].
  split; [exact Hnd|].
  split.
  - intros k. rewrite Hcover, in_map_iff. split.
    + intros [r [Hr Hin]]. eauto.
    + intros [r [Hin Hr]]. eauto.
  - clear - Hruns. induction Hruns; constructor; auto.
Qed.

(** The theorem at the spec's example table, partitioned by [grp]. *)
Lemma get_partition_groups_correct_witness :
  ["grp"] <> [] /\
  incl ["grp"] (column_names example_df) /\
  exists groups,
    _get_partition_groups example_df ["grp"] None = Ok groups /\
    concat (map rows groups)
    = rows (reset_index (mkDF (columns example_df)
                              (sort_rows [1] (rows example_df)))).
Proof.
  assert (H1 : ["grp"] <> []) by discriminate.
  assert (H2 : incl ["grp"] (column_names example_df)).
  { intros x [<-|[]]. simpl. auto. }
  split; [exact H1|]. split; [exact H2|].
  destruct (get_partition_groups_correct example_df ["grp"] None H1 H2)
    as (pos & sorted & frame & groups & splits & keys & Hpos & Hsort & _ & _
        & Hframe & _ & Hgroups & _ & _ & _ & _ & _ & Hconcat & _).
  exists groups. split; [exact Hgroups|].
  simpl in Hsort, Hframe. inversion Hsort; subst sorted. subst frame.
  exact Hconcat.
Defined.

(** C10: every group [_get_partition_groups] returns has at least one
    row, because the groups are the slices at strictly increasing split
    points; the test [len(sub_df) == 0] that guards the skipping branch
    of [write_to_dataset] is false for each of them. *)
Theorem partition_groups_nonempty df partition_cols preserve_index groups :
  _get_partition_groups df partition_cols preserve_index = Ok groups ->
  exists splits frame,
    increasing splits /\
    List.length splits = S (List.length groups) /\
    groups = map (fun i => iloc frame (nth i splits 0) (nth (S i) splits 0))
                 (seq 0 (List.length groups)) /\
    Forall (fun sub_df => (len sub_df =? 0)%nat = false) groups.
Proof.
  intros Hret.
  destruct (col_indices partition_cols (columns df)) as [pos|e] eqn:Hpos.
  2:{ unfold _get_partition_groups, sort_values in Hret.
      rewrite Hpos in Hret. discriminate. }
  destruct (partition_groups_structure df partition_cols preserve_index pos Hpos)
    as (splits & keys & Hgroups & Hne & Hinc & _ & _ & _ & _ & _ & Hruns).
  match type of Hgroups with
  | _ = Ok (map _ (slices (rows ?f) _)) => set (frame := f) in *
  end.
  assert (Hfcols : columns frame = columns df).
  { unfold frame. now destruct (negb (truthy preserve_index)). }
  rewrite <- Hfcols in Hgroups.
  destruct (groups_as_ilocs frame splits Hne) as [Hlen Hiloc].
  rewrite Hgroups in Hret. inversion Hret; subst groups.
  exists splits, frame.
  split; [exact Hinc|]. split; [exact Hlen|]. split; [exact Hiloc|].
  rewrite Forall_map. clear - Hruns.
  induction Hruns as [|g k gs ks' [Hg _] _ IH]; constructor; auto.
  unfold len. simpl. destruct g; [contradiction|reflexivity].
Qed.

Lemma partition_groups_nonempty_witness :
  exists groups,
    _get_partition_groups example_df ["grp"] None = Ok groups /\
    List.length groups = 2 /\
    Forall (fun sub_df => (len sub_df =? 0)%nat = false) groups.
Proof.
  eexists. split; [reflexivity|]. split; [reflexivity|].
  destruct (partition_groups_nonempty example_df ["grp"] None _ eq_refl)
    as (splits & frame & _ & _ & _ & Hall).
  exact Hall.
Defined.

(** ** The loop of [write_to_dataset] *)

(** *** The two functions call each other: the tie is sound *)

Lemma bind_ext {A B} (m1 m2 : M A) (f1 f2 : A -> M B) w :
  m1 w = m2 w -> (forall a w', f1 a w' = f2 a w') ->
  bind m1 f1 w = bind m2 f2 w.
Proof.
  intros Hm Hf. unfold bind. rewrite Hm.
  destruct (m2 w) as [[a|e] w']; auto.
Qed.

(** [to_parquet] only looks at its [write_to_dataset] when partition
    columns are given. *)
Lemma to_parquet_with_unpartitioned env f g df path engine compression index
    partition_cols statistics metadata_file_path args kwargs w :
  nonempty partition_cols = false ->
  to_parquet_with env f df path engine compression index partition_cols
    statistics metadata_file_path args kwargs w
  = to_parquet_with env g df path engine compression index partition_cols
      statistics metadata_file_path args kwargs w.
Proof.
  intros H. unfold to_parquet_with. now rewrite H.
Qed.

Lemma write_groups_ext env f g fs root_path partition_cols preserve_index
    return_metadata kwargs groups :
  forall metadata w,
    write_groups env (to_parquet_with env f) fs root_path partition_cols
      preserve_index return_metadata kwargs groups metadata w
    = write_groups env (to_parquet_with env g) fs root_path partition_cols
        preserve_index return_metadata kwargs groups metadata w.
Proof.
  induction groups as [|sub_df groups IH]; intros metadata w; [reflexivity|].
  cbn [write_groups]. destruct (len sub_df =? 0)%nat; [apply IH|].
  apply bind_ext; [reflexivity|]. intros keys w1.
  apply bind_ext; [reflexivity|]. intros _ w2.
  apply bind_ext; [reflexivity|]. intros guid_ w3.
  apply bind_ext; [reflexivity|]. intros write_df w4.
  destruct return_metadata; apply bind_ext; intros;
    try apply IH; unfold df_to_parquet;
    (destruct (_ || _); [reflexivity|]);
    now apply to_parquet_with_unpartitioned.
Qed.

(** [write_to_dataset] is its body over [to_parquet], and [to_parquet]
    is its body over [write_to_dataset]. *)
Lemma write_to_dataset_unfold env df root_path partition_cols fs
    preserve_index return_metadata kwargs w :
  write_to_dataset env df root_path partition_cols fs preserve_index
    return_metadata kwargs w
  = write_to_dataset_with env (to_parquet env) df root_path partition_cols fs
      preserve_index return_metadata kwargs w.
Proof.
  unfold write_to_dataset, write_to_dataset_with, to_parquet.
  apply bind_ext; [reflexivity|]. intros _ w1.
  apply bind_ext; [|reflexivity].
  unfold collect_metadata.
  destruct partition_cols as [[|p ps]|].
  - apply bind_ext; [reflexivity|]. intros guid_ w2.
    destruct return_metadata; apply bind_ext; intros; try reflexivity;
      unfold df_to_parquet; (destruct (_ || _); [reflexivity|]);
      now apply to_parquet_with_unpartitioned.
  - apply bind_ext; [reflexivity|]. intros data_cols w2.
    destruct (List.length data_cols =? 0)%nat; [reflexivity|].
    apply bind_ext; [reflexivity|]. intros groups w3.
    apply write_groups_ext.
  - apply bind_ext; [reflexivity|]. intros guid_ w2.
    destruct return_metadata; apply bind_ext; intros; try reflexivity;
      unfold df_to_parquet; (destruct (_ || _); [reflexivity|]);
      now apply to_parquet_with_unpartitioned.
Qed.

Lemma mem_spec n labels : mem n labels = true <-> In n labels.
Proof.
  unfold mem. rewrite existsb_exists. split.
  - intros [x [Hx E]]. apply String.eqb_eq in E. now subst.
  - intros H. exists n. split; auto. apply String.eqb_refl.
Qed.

Lemma mem_false n labels : mem n labels = false <-> ~ In n labels.
Proof.
  rewrite <- mem_spec. destruct (mem n labels); split; congruence.
Qed.

Lemma index_drop_ok names labels :
  incl labels names ->
  index_drop names labels = Ok (filter (fun n => negb (mem n labels)) names).
Proof.
  intros Hincl. unfold index_drop.
  destruct (filter _ labels) as [|l absent] eqn:E; [reflexivity|].
  assert (Hl : In l (filter (fun l => negb (mem l names)) labels))
    by (rewrite E; now left).
  apply filter_In in Hl. destruct Hl as [Hin Hl].
  apply negb_true_iff in Hl. apply (mem_false l names) in Hl.
  exfalso. apply Hl. now apply Hincl.
Qed.

Lemma first_values_ok g names pos r rest :
  col_indices names (columns g) = Ok pos ->
  rows g = r :: rest ->
  first_values g names = Ok (project pos r).
Proof.
  intros Hpos Hrows. revert pos Hpos.
  induction names as [|n names IH]; simpl; intros pos Hpos.
  - now inversion Hpos.
  - unfold first_value.
    destruct (col_index n (columns g)) as [i|]; try discriminate.
    destruct (col_indices names (columns g)) as [pos'|]; try discriminate.
    inversion Hpos; subst pos. rewrite Hrows. simpl.
    now rewrite (IH pos' eq_refl).
Qed.

Lemma drop_columns_ok g labels :
  incl labels (column_names g) ->
  drop_columns g labels = Ok (without_columns g labels).
Proof.
  intros H. unfold drop_columns. now rewrite index_drop_ok.
Qed.

Lemma without_columns_names g labels c :
  In c labels -> ~ In c (column_names (without_columns g labels)).
Proof.
  intros Hc Hin. unfold column_names, without_columns in Hin. simpl in Hin.
  apply in_map_iff in Hin. destruct Hin as [[n d] [Hn Hin]]. simpl in Hn.
  subst n. apply filter_In in Hin. destruct Hin as [_ Hm].
  apply negb_true_iff in Hm. simpl in Hm. apply mem_false in Hm. contradiction.
Qed.

Lemma without_keyword_absent name kwargs :
  given name kwargs = false -> without_keyword name kwargs = kwargs.
Proof.
  unfold given, without_keyword.
  induction kwargs as [|k kwargs IH]; [reflexivity|]. simpl.
  intros H. apply orb_false_iff in H. destruct H as [Hk Hrest].
  rewrite Hk. simpl. now rewrite IH.
Qed.

Lemma keyword_value_absent name kwargs :
  given name kwargs = false -> keyword_value name kwargs = None.
Proof.
  unfold given, keyword_value.
  induction kwargs as [|k kwargs IH]; [reflexivity|]. simpl.
  intros H. apply orb_false_iff in H. destruct H as [Hk Hrest].
  rewrite Hk. now apply IH.
Qed.

Lemma repeats_nothing_spec kwargs :
  repeats_nothing kwargs = true ->
  given "self" (kw_rest kwargs) = false /\
  given "path" (kw_rest kwargs) = false /\
  given "index" (kw_rest kwargs) = false /\
  given "metadata_file_path" (kw_rest kwargs) = false.
Proof.
  unfold repeats_nothing. intros H. apply negb_true_iff in H.
  apply orb_false_iff in H. destruct H as [H Hm].
  apply orb_false_iff in H. destruct H as [H Hi].
  apply orb_false_iff in H. destruct H as [Hs Hp]. auto.
Qed.

(** When no entry repeats an argument, the inner call reaches
    [to_parquet] with the frame, the path, the options of [kwargs] and
    the remaining entries. *)
Lemma df_to_parquet_reaches to_parquet wdf path index mfp kwargs w :
  repeats_nothing kwargs = true ->
  df_to_parquet to_parquet wdf path index mfp kwargs w
  = to_parquet wdf path
      (default "cudf" (kw_engine kwargs))
      (default (Some "snappy") (kw_compression kwargs))
      index None
      (default "ROWGROUP" (kw_statistics kwargs))
      mfp [] (mkDkw None None (kw_rest kwargs)) w.
Proof.
  intros H. destruct (repeats_nothing_spec _ H) as (Hs & Hp & Hi & Hm).
  unfold df_to_parquet. rewrite Hs, Hp, Hi, Hm, andb_false_r. cbn [orb].
  rewrite (without_keyword_absent _ _ Hm), (keyword_value_absent _ _ Hm).
  now destruct mfp.
Qed.

Section Loop.
Variable env : Env.
Variables (fs : FileSystem) (root_path : string).
Variables (partition_cols : list string) (preserve_index : option bool).
Variables (return_metadata : bool) (kwargs : writer_kwargs).
Variables (cols : list (string * dtype)) (pos : list nat).

Hypothesis cols_pos : col_indices partition_cols cols = Ok pos.
Hypothesis cols_incl : incl partition_cols (map fst cols).
Hypothesis is_accelerated : accelerated kwargs = true.
Hypothesis no_repeat : repeats_nothing kwargs = true.
Hypothesis no_category :
  existsb is_category
          (filter (fun c => negb (mem (fst c) partition_cols)) cols) = false.

Lemma df_to_parquet_inner wdf path index mfp w :
  has_category wdf = false ->
  df_to_parquet (to_parquet_with env no_dataset) wdf path index mfp kwargs w
  = (Ok (returned_by env wdf index mfp kwargs),
     add_write w (written_by env wdf path index kwargs)).
Proof.
  intros Hcat. rewrite df_to_parquet_reaches by exact no_repeat.
  unfold to_parquet_with, returned_by, written_by.
  unfold accelerated in is_accelerated. rewrite is_accelerated.
  simpl nonempty. cbv iota. rewrite Hcat. reflexivity.
Qed.

Lemma write_groups_run groups keys :
  Forall2 (group_of_key cols pos) groups keys ->
  forall metadata w,
    let entries := combine (seq (guids w) (List.length keys))
                           (combine groups keys) in
    write_groups env (to_parquet_with env no_dataset) fs root_path
      partition_cols preserve_index return_metadata kwargs groups metadata w
    = (Ok (metadata ++
       if return_metadata
       then map (metadata_of env fs partition_cols preserve_index kwargs)
                entries
       else []),
       mkWorld
         (dirs w ++ map (fun k => sep_join fs [root_path;
                                    subdir_of fs partition_cols k]) keys)
         (written w ++ map (write_of env fs root_path partition_cols
                          preserve_index kwargs) entries)
         (guids w + List.length keys)
         (warnings w)).
Proof.
  induction 1 as [|g k groups keys [Hne [Hcols Hkey]] Hrest IH];
    intros metadata w.
  - simpl. unfold ret. rewrite !app_nil_r, Nat.add_0_r.
    destruct return_metadata; rewrite ?app_nil_r; now destruct w.
  - destruct (rows g) as [|r rest] eqn:Hrows; [contradiction|].
    assert (Hlen : (len g =? 0)%nat = false).
    { unfold len. now rewrite Hrows. }
    assert (Hfirst : first_values g partition_cols = Ok k).
    { rewrite (first_values_ok g partition_cols pos r rest);
        [|now rewrite Hcols|assumption].
      f_equal. now inversion Hkey. }
    assert (Hdrop : drop_columns g partition_cols
                    = Ok (without_columns g partition_cols)).
    { apply drop_columns_ok. unfold column_names. now rewrite Hcols. }
    assert (Hcat : has_category (without_columns g partition_cols) = false).
    { unfold has_category, without_columns. simpl.
      rewrite Hcols. exact no_category. }
    cbn [write_groups]. rewrite Hlen.
    unfold bind at 1. unfold lift at 1. rewrite Hfirst.
    unfold bind at 1. unfold mkdirs at 1.
    unfold bind at 1. unfold fresh_guid at 1.
    unfold bind at 1. unfold lift at 1. rewrite Hdrop.
    cbn [dirs written guids warnings].
    fold (subdir_of fs partition_cols k).
    fold (outfile_of env (guids w)).
    fold (full_path_of env fs root_path partition_cols k (guids w)).
    fold (relative_path_of env fs partition_cols k (guids w)).
    destruct return_metadata eqn:Erm.
    + unfold bind at 1. rewrite (df_to_parquet_inner _ _ _ _ _ Hcat).
      rewrite IH. cbn [add_write dirs written guids warnings].
      cbn [List.length seq combine map].
      f_equal.
      * f_equal. now rewrite <- app_assoc.
      * f_equal; try (rewrite <- app_assoc; reflexivity). lia.
    + unfold bind at 1. rewrite (df_to_parquet_inner _ _ _ _ _ Hcat).
      rewrite IH. cbn [add_write dirs written guids warnings].
      cbn [List.length seq combine map].
      f_equal.
      f_equal; try (rewrite <- app_assoc; reflexivity). lia.
Qed.
End Loop.

Lemma dtype_category d : String.eqb (dtype_name d) "category" = true <-> d = Category.
Proof. destruct d; simpl; split; congruence. Qed.

Lemma return_merged_world metadata w :
  snd (return_merged metadata w) = w.
Proof.
  unfold return_merged. destruct metadata as [|m ms]; [reflexivity|].
  destruct (1 <? List.length (m :: ms))%nat; [|reflexivity].
  unfold bind, lift, ret.
  now destruct (merge_parquet_filemetadata (m :: ms)).
Qed.

(** ** [write_to_dataset] with partition columns *)

Lemma string_app_assoc (a b c : string) :
  ((a ++ b) ++ c = a ++ (b ++ c))%string.
Proof. induction a as [|x a IH]; simpl; congruence. Qed.

Lemma sep_join_pair fs a b : sep_join fs [a; b] = (a ++ sep fs ++ b)%string.
Proof. reflexivity. Qed.

Lemma collect_metadata_some env to_parquet df root_path partition_cols fs
    preserve_index return_metadata kwargs :
  partition_cols <> [] ->
  collect_metadata env to_parquet df root_path (Some partition_cols) fs
    preserve_index return_metadata kwargs
  = (data_cols <- lift (index_drop (column_names df) partition_cols) ;;
     if (List.length data_cols =? 0)%nat
     then raise (ValueError no_data_left)
     else
       groups <- lift (_get_partition_groups df partition_cols preserve_index) ;;
       write_groups env to_parquet fs root_path partition_cols
         preserve_index return_metadata kwargs groups [])%io.
Proof. destruct partition_cols; [contradiction|reflexivity]. Qed.

Section Partitioned.
Variable env : Env.
Variables (df : DataFrame) (root_path : string) (partition_cols : list string).
Variables (fs : FileSystem) (preserve_index : option bool).
Variables (return_metadata : bool) (kwargs : writer_kwargs).

Hypothesis cols_nonempty : partition_cols <> [].
Hypothesis cols_incl : incl partition_cols (column_names df).
Hypothesis data_left : exists c, In c (column_names df) /\ ~ In c partition_cols.
Hypothesis is_accelerated : accelerated kwargs = true.
Hypothesis no_repeat : repeats_nothing kwargs = true.
Hypothesis no_category :
  forall c, In c (columns df) -> data_column partition_cols c ->
            snd c <> Category.

Lemma data_columns_left :
  (List.length (filter (fun n => negb (mem n partition_cols)) (column_names df))
   =? 0)%nat = false.
Proof.
  destruct data_left as [c [Hin Hnot]].
  apply Nat.eqb_neq. intros Hlen. apply length_zero_iff_nil in Hlen.
  assert (H : In c (filter (fun n => negb (mem n partition_cols))
                           (column_names df))).
  { apply filter_In. split; auto. apply negb_true_iff. now apply mem_false. }
  rewrite Hlen in H. destruct H.
Qed.

Lemma no_category_left :
  existsb is_category
          (filter (fun c => negb (mem (fst c) partition_cols)) (columns df))
  = false.
Proof.
  destruct (existsb _ _) eqn:E; auto.
  apply existsb_exists in E. destruct E as [c [Hin Hc]].
  apply filter_In in Hin. destruct Hin as [Hin Hd].
  apply negb_true_iff, mem_false in Hd. apply dtype_category in Hc.
  exfalso. exact (no_category c Hin Hd Hc).
Qed.

(** The partitioned branch: the groups of [_get_partition_groups],
    one per distinct key, each written once. *)
Lemma collect_metadata_partitioned :
  exists pos groups keys,
    col_indices partition_cols (columns df) = Ok pos /\
    _get_partition_groups df partition_cols preserve_index = Ok groups /\
    NoDup keys /\
    (forall k, In k keys <-> exists r, In r (rows df) /\ project pos r = k) /\
    Forall2 (group_of_key (columns df) pos) groups keys /\
    forall w,
      let entries := combine (seq (guids w) (List.length keys))
                             (combine groups keys) in
      collect_metadata env (to_parquet_with env no_dataset) df root_path
        (Some partition_cols) fs preserve_index return_metadata kwargs w
      = (Ok (if return_metadata
             then map (metadata_of env fs partition_cols preserve_index kwargs)
                      entries
             else []),
         mkWorld
           (dirs w ++ map (fun k => sep_join fs [root_path;
                                      subdir_of fs partition_cols k]) keys)
           (written w ++ map (write_of env fs root_path partition_cols
                                preserve_index kwargs) entries)
           (guids w + List.length keys)
           (warnings w)).
Proof.
  destruct (col_indices_ok partition_cols (columns df) cols_incl) as [pos Hpos].
  destruct (partition_groups_structure df partition_cols preserve_index pos Hpos)
    as (splits & keys & Hgroups & _ & _ & _ & _ & _ & Hnd & Hcover & Hruns).
  match type of Hgroups with
  | _ = Ok ?gs => set (groups := gs) in *
  end.
  assert (Hgk : Forall2 (group_of_key (columns df) pos) groups keys).
  { unfold groups. clear - Hruns.
    induction Hruns as [|g k gs ks [Hne Hall] _ IH]; simpl; constructor; auto.
    repeat split; auto. }
  exists pos, groups, keys.
  split; [exact Hpos|]. split; [exact Hgroups|]. split; [exact Hnd|].
  split.
  { intros k. rewrite Hcover, in_map_iff. split.
    - intros [r [Hr Hin]]. eauto.
    - intros [r [Hin Hr]]. eauto. }
  split; [exact Hgk|].
  intros w entries.
  rewrite collect_metadata_some by exact cols_nonempty.
  unfold bind at 1. unfold lift at 1.
  rewrite (index_drop_ok _ _ cols_incl), data_columns_left.
  unfold bind at 1. unfold lift at 1. rewrite Hgroups.
  rewrite (write_groups_run env fs root_path partition_cols preserve_index
             return_metadata kwargs (columns df) pos Hpos cols_incl
             is_accelerated no_repeat no_category_left groups keys Hgk).
  reflexivity.
Qed.
End Partitioned.

(** C2 (as amended): for a table whose partition columns are columns of
    the table, with at least one other column and no categorical column
    among the others, and for keyword arguments that leave the
    accelerated engine selected and repeat no argument of the inner
    call ([self], [path], [index], [metadata_file_path]),
    [write_to_dataset] writes exactly one file per distinct
    partition-key combination of the data: the file of key [k] goes to
    [root/col1=val1/col2=val2/.../<guid>.parquet], the segments in the
    order of the partition columns, and the frame written there is the
    group of [k] without the partition columns. *)
Theorem write_to_dataset_one_file_per_key env df root_path partition_cols fs
    preserve_index return_metadata kwargs w :
  partition_cols <> [] ->
  incl partition_cols (column_names df) ->
  (exists c, In c (column_names df) /\ ~ In c partition_cols) ->
  accelerated kwargs = true ->
  repeats_nothing kwargs = true ->
  (forall c, In c (columns df) -> data_column partition_cols c ->
             snd c <> Category) ->
  exists pos groups keys r w' fs',
    fs' = _ensure_filesystem env fs root_path /\
    col_indices partition_cols (columns df) = Ok pos /\
    _get_partition_groups df partition_cols preserve_index = Ok groups /\
    NoDup keys /\
    (forall k, In k keys <-> exists row, In row (rows df) /\ project pos row = k) /\
    Forall2 (fun g k => rows g <> [] /\
                        Forall (fun row => project pos row = k) (rows g))
            groups keys /\
    write_to_dataset env df root_path (Some partition_cols) fs preserve_index
      return_metadata kwargs w = (r, w') /\
    (return_metadata = false -> r = Ok None) /\
    written w' =
      written w ++
      map (fun '(n, (g, k)) =>
             NativeWrite
               (root_path ++ sep fs' ++
                String.concat (sep fs') (segments partition_cols k) ++
                sep fs' ++ guid env n ++ ".parquet")%string
               (file_of env (without_columns g partition_cols) preserve_index
                  kwargs))
          (combine (seq (guids w) (List.length keys)) (combine groups keys)) /\
    Forall (fun g => forall c, In c partition_cols ->
                               ~ In c (column_names (without_columns g partition_cols)))
           groups.
Proof.
  intros Hne Hincl Hdata Hacc Hrep Hcat.
  set (fs' := _ensure_filesystem env fs root_path).
  destruct (collect_metadata_partitioned env df root_path partition_cols fs'
              preserve_index return_metadata kwargs Hne Hincl Hdata Hacc Hrep
              Hcat)
    as (pos & groups & keys & Hpos & Hgroups & Hnd & Hcover & Hgk & Hrun).
  set (w1 := mkWorld (dirs w ++ [root_path]) (written w) (guids w) (warnings w)).
  specialize (Hrun w1). cbv zeta in Hrun.
  exists pos, groups, keys.
  eexists _, _, fs'.
  split; [reflexivity|]. split; [exact Hpos|]. split; [exact Hgroups|].
  split; [exact Hnd|]. split; [exact Hcover|].
  split.
  { clear - Hgk. induction Hgk as [|g k gs ks [H1 [_ H2]] _ IH];
      constructor; auto. }
  split.
  { unfold write_to_dataset, write_to_dataset_with. fold fs'.
    unfold bind at 1. unfold mkdirs at 1. fold w1.
    unfold bind at 1. rewrite Hrun.
    apply surjective_pairing. }
  split.
  { intros ->. reflexivity. }
  split.
  { rewrite return_merged_world. cbn [written w1 guids].
    f_equal. apply map_ext. intros [n [g k]].
    unfold write_of, written_by, full_path_of, subdir_of, outfile_of.
    f_equal. rewrite !sep_join_pair. unfold sep_join.
    now rewrite !string_app_assoc. }
  { rewrite Forall_forall. intros g _ c Hc.
    now apply without_columns_names. }
Qed.

Lemma example_incl : incl ["grp"] (column_names example_df).
Proof. intros x [<-|[]]. simpl. auto. Qed.

Lemma example_data_left :
  exists c, In c (column_names example_df) /\ ~ In c ["grp"].
Proof.
  exists "id". split; [simpl; auto|]. intros [H|[]]. discriminate.
Qed.

Lemma example_no_category :
  forall c, In c (columns example_df) -> data_column ["grp"] c ->
            snd c <> Category.
Proof.
  intros c [<-|[<-|[]]] _; discriminate.
Qed.

Lemma write_to_dataset_one_file_per_key_witness :
  exists groups w',
    _get_partition_groups example_df ["grp"] None = Ok groups /\
    snd (write_to_dataset example_env example_df "root" (Some ["grp"]) None None
           false no_kwargs empty_world) = w' /\
    List.length (written w') = List.length groups.
Proof.
  destruct (write_to_dataset_one_file_per_key example_env example_df "root"
              ["grp"] None None false no_kwargs empty_world
              ltac:(discriminate) example_incl example_data_left
              eq_refl eq_refl example_no_category)
    as (pos & groups & keys & r & w' & fs' & _ & _ & Hgroups & _ & _ & Hgk
        & Hrun & _ & Hwritten & _).
  exists groups, w'. split; [exact Hgroups|]. split; [now rewrite Hrun|].
  rewrite Hwritten, length_app, length_map, length_combine.
  rewrite length_seq, length_combine.
  apply Forall2_length in Hgk. rewrite Hgk. simpl. lia.
Defined.

(** C2 as stated fails: a table with nothing but its partition column
    has two distinct keys, and [write_to_dataset] raises without writing
    a file. *)
Lemma write_to_dataset_one_file_per_key_counterexample :
  ["grp"] <> [] /\
  (exists row, In row (rows only_key_df) /\ project [0] row = [SStr "x"]) /\
  fst (write_to_dataset example_env only_key_df "root" (Some ["grp"]) None None
         false no_kwargs empty_world) = Raise NoDataColumns /\
  written (snd (write_to_dataset example_env only_key_df "root" (Some ["grp"])
                  None None false no_kwargs empty_world)) = [].
Proof.
  split; [discriminate|]. split.
  - exists (mkRow 0 [SStr "x"]). split; [simpl; auto|reflexivity].
  - split; reflexivity.
Qed.

(** C6: when dropping the partition columns leaves no column,
    [write_to_dataset] raises [NoDataColumns]; it has created the root
    directory and written no file. *)
Theorem write_to_dataset_no_data_columns env df root_path partition_cols fs
    preserve_index return_metadata kwargs w :
  partition_cols <> [] ->
  index_drop (column_names df) partition_cols = Ok [] ->
  write_to_dataset env df root_path (Some partition_cols) fs preserve_index
    return_metadata kwargs w
  = (Raise NoDataColumns,
     mkWorld (dirs w ++ [root_path]) (written w) (guids w) (warnings w)).
Proof.
  intros Hne Hdrop.
  unfold write_to_dataset, write_to_dataset_with.
  unfold bind at 1. unfold mkdirs at 1.
  unfold bind at 1. rewrite collect_metadata_some by exact Hne.
  unfold bind at 1. unfold lift at 1. rewrite Hdrop. reflexivity.
Qed.

Lemma write_to_dataset_no_data_columns_witness :
  ["grp"] <> [] /\
  index_drop (column_names only_key_df) ["grp"] = Ok [] /\
  write_to_dataset example_env only_key_df "root" (Some ["grp"]) None None
    false no_kwargs empty_world
  = (Raise NoDataColumns, mkWorld ["root"] [] 0 []).
Proof.
  split; [discriminate|]. split; [reflexivity|].
  apply (write_to_dataset_no_data_columns example_env only_key_df "root"
           ["grp"] None None false no_kwargs empty_world);
    [discriminate|reflexivity].
Defined.

(** C5: the last statement of [write_to_dataset] gives back the element
    of a one-element metadata list as it is, without a merge; so a
    write whose metadata list has one element returns that element. *)
Theorem single_metadata_unchanged :
  (forall m w, return_merged [m] w = (Ok m, w)) /\
  (forall env df root_path partition_cols fs preserve_index return_metadata
          kwargs w m w',
      collect_metadata env (to_parquet_with env no_dataset) df root_path
        partition_cols (_ensure_filesystem env fs root_path) preserve_index
        return_metadata kwargs
        (mkWorld (dirs w ++ [root_path]) (written w) (guids w) (warnings w))
      = (Ok [m], w') ->
      write_to_dataset env df root_path partition_cols fs preserve_index
        return_metadata kwargs w = (Ok m, w')).
Proof.
  split.
  - reflexivity.
  - intros env df root_path partition_cols fs preserve_index return_metadata
      kwargs w m w' H.
    unfold write_to_dataset, write_to_dataset_with.
    unfold bind at 1. unfold mkdirs at 1.
    unfold bind at 1. rewrite H. reflexivity.
Qed.

Lemma single_metadata_unchanged_witness :
  exists m w',
    write_to_dataset example_env one_group_df "root" (Some ["grp"]) None None
      true no_kwargs empty_world = (Ok (Some m), w') /\
    md_file_path m = Some "grp=x/f0.parquet".
Proof.
  eexists _, _. split.
  - apply (proj2 single_metadata_unchanged). cbv. reflexivity.
  - reflexivity.
Defined.

(** C3: at the spec's example table, partitioned by [grp] with metadata
    requested, [write_to_dataset] returns the merged metadata of the two
    files and [to_parquet], which calls it, returns [None]. *)
Theorem to_parquet_drops_merged_metadata :
  exists merged w,
    write_to_dataset example_env example_df "root" (Some ["grp"]) None None
      true no_kwargs empty_world = (Ok (Some merged), w) /\
    map rgd_file_path (md_row_groups merged)
      = [Some "grp=x/f0.parquet"; Some "grp=y/f1.parquet"] /\
    to_parquet example_env example_df "root" "cudf" (Some "snappy") None
      (Some ["grp"]) "ROWGROUP" None [] with_metadata empty_world
    = (Ok None, w).
Proof.
  eexists _, _. split; [reflexivity|]. split; reflexivity.
Qed.

Lemma forall2_map_in {A B} (f : A -> B) (P : B -> A -> Prop) (l : list A) :
  (forall a, In a l -> P (f a) a) -> Forall2 P (map f l) l.
Proof.
  induction l as [|a l IH]; simpl; intros H; constructor; auto.
Qed.

(** ** Categorical columns on the accelerated path *)

Lemma partition_groups_of_keys df partition_cols preserve_index pos :
  col_indices partition_cols (columns df) = Ok pos ->
  exists groups keys,
    _get_partition_groups df partition_cols preserve_index = Ok groups /\
    (forall k, In k keys <-> In k (map (project pos) (rows df))) /\
    Forall2 (group_of_key (columns df) pos) groups keys.
Proof.
  intros Hpos.
  destruct (partition_groups_structure df partition_cols preserve_index pos Hpos)
    as (splits & keys & Hgroups & _ & _ & _ & _ & _ & _ & Hcover & Hruns).
  eexists _, keys. split; [exact Hgroups|]. split; [exact Hcover|].
  clear - Hruns.
  induction Hruns as [|g k gs ks [Hne Hall] _ IH]; simpl; constructor; auto.
  repeat split; auto.
Qed.

Lemma df_to_parquet_rejects env wdf path index mfp kwargs w :
  accelerated kwargs = true ->
  repeats_nothing kwargs = true ->
  has_category wdf = true ->
  df_to_parquet (to_parquet_with env no_dataset) wdf path index mfp kwargs w
  = (Raise UnsupportedCategoricalType, w).
Proof.
  intros Hacc Hrep Hcat. rewrite df_to_parquet_reaches by exact Hrep.
  unfold to_parquet_with.
  unfold accelerated in Hacc. rewrite Hacc. simpl nonempty. cbv iota.
  now rewrite Hcat.
Qed.

Lemma write_groups_rejects env fs root_path partition_cols preserve_index
    return_metadata kwargs cols pos g k groups metadata w :
  col_indices partition_cols cols = Ok pos ->
  incl partition_cols (map fst cols) ->
  group_of_key cols pos g k ->
  accelerated kwargs = true ->
  repeats_nothing kwargs = true ->
  has_category (without_columns g partition_cols) = true ->
  write_groups env (to_parquet_with env no_dataset) fs root_path partition_cols
    preserve_index return_metadata kwargs (g :: groups) metadata w
  = (Raise UnsupportedCategoricalType,
     mkWorld (dirs w ++ [sep_join fs [root_path; subdir_of fs partition_cols k]])
             (written w) (S (guids w)) (warnings w)).
Proof.
  intros Hpos Hincl [Hne [Hcols Hkey]] Hacc Hrep Hcat.
  destruct (rows g) as [|r rest] eqn:Hrows; [contradiction|].
  assert (Hlen : (len g =? 0)%nat = false).
  { unfold len. now rewrite Hrows. }
  assert (Hfirst : first_values g partition_cols = Ok k).
  { rewrite (first_values_ok g partition_cols pos r rest);
      [|now rewrite Hcols|assumption].
    f_equal. now inversion Hkey. }
  assert (Hdrop : drop_columns g partition_cols
                  = Ok (without_columns g partition_cols)).
  { apply drop_columns_ok. unfold column_names. now rewrite Hcols. }
  cbn [write_groups]. rewrite Hlen.
  unfold bind at 1. unfold lift at 1. rewrite Hfirst.
  unfold bind at 1. unfold mkdirs at 1.
  unfold bind at 1. unfold fresh_guid at 1.
  unfold bind at 1. unfold lift at 1. rewrite Hdrop.
  cbn [dirs written guids warnings].
  destruct return_metadata; unfold bind at 1;
    now rewrite (df_to_parquet_rejects _ _ _ _ _ _ _ Hacc Hrep Hcat).
Qed.

Lemma forwards_cleanly_spec kwargs :
  forwards_cleanly kwargs = true ->
  given "root_path" (kw_extra kwargs) || given "preserve_index" (kw_extra kwargs)
  = false /\
  repeats_nothing (mkKw None None None (kw_extra kwargs)) = true.
Proof.
  unfold forwards_cleanly. intros H. apply andb_true_iff in H.
  destruct H as [H1 H2]. apply negb_true_iff in H1. auto.
Qed.

(** C4 (as amended): a table with a categorical column that is not a
    partition column is rejected by [to_parquet] on the accelerated
    path with [UnsupportedCategoricalType], and no file is written:
    at once when there are no partition columns, and at the first group
    when the table is partitioned (by columns it has, with at least one
    row, and with keyword arguments that repeat no argument of the
    calls they are passed on to). *)
Theorem to_parquet_rejects_categorical env df path compression index
    partition_cols statistics metadata_file_path args kwargs w :
  (exists c, In c (columns df) /\ snd c = Category /\
             data_column (default [] partition_cols) c) ->
  (nonempty partition_cols = true ->
   incl (default [] partition_cols) (column_names df) /\ rows df <> [] /\
   forwards_cleanly kwargs = true) ->
  exists w',
    to_parquet env df path "cudf" compression index partition_cols statistics
      metadata_file_path args kwargs w
    = (Raise UnsupportedCategoricalType, w') /\
    written w' = written w /\
    (nonempty partition_cols = false -> w' = w).
Proof.
  intros [c [Hc [Hcat Hdata]]] Hpart.
  unfold to_parquet, to_parquet_with. rewrite String.eqb_refl.
  destruct (nonempty partition_cols) eqn:Hne.
  - destruct partition_cols as [[|p ps]|]; try discriminate.
    simpl default in *. set (pcs := p :: ps) in *.
    destruct (Hpart eq_refl) as [Hincl [Hrows Hclean]].
    destruct (forwards_cleanly_spec _ Hclean) as [Hcall Hrep].
    rewrite Hcall.
    destruct (col_indices_ok pcs (columns df) Hincl) as [pos Hpos].
    destruct (partition_groups_of_keys df pcs index pos Hpos)
      as (groups & keys & Hgroups & Hcover & Hgk).
    destruct groups as [|g groups].
    { exfalso. inversion Hgk; subst.
      destruct (rows df) as [|r rest] eqn:Er; [contradiction|].
      apply (proj2 (Hcover (project pos r))). simpl. now left. }
    inversion Hgk as [|? k ? keys' Hg Hgk']; subst.
    assert (Hleft : (List.length (filter (fun n => negb (mem n pcs))
                                         (column_names df)) =? 0)%nat = false).
    { apply data_columns_left. exists (fst c). split; [|exact Hdata].
      unfold column_names. now apply in_map. }
    assert (Hhas : has_category (without_columns g pcs) = true).
    { destruct Hg as [_ [Hcols _]].
      unfold has_category, without_columns. cbn [columns]. rewrite Hcols.
      apply existsb_exists. exists c. split.
      - apply filter_In. split; auto. apply negb_true_iff.
        now apply (proj2 (mem_false (fst c) pcs)).
      - unfold is_category. rewrite Hcat. reflexivity. }
    eexists. split; [|split; [|discriminate]].
    + unfold bind at 1. unfold write_to_dataset, write_to_dataset_with.
      unfold bind at 1. unfold mkdirs at 1.
      unfold bind at 1. rewrite collect_metadata_some by discriminate.
      unfold bind at 1. unfold lift at 1.
      rewrite (index_drop_ok _ _ Hincl), Hleft.
      unfold bind at 1. unfold lift at 1. fold pcs. rewrite Hgroups.
      rewrite (write_groups_rejects env _ _ pcs index _
                 (mkKw None None None (kw_extra kwargs)) (columns df) pos
                 g k groups [] _ Hpos Hincl Hg eq_refl Hrep Hhas).
      reflexivity.
    + reflexivity.
  - assert (Hhas : has_category df = true).
    { unfold has_category. apply existsb_exists. exists c. split; auto.
      unfold is_category. rewrite Hcat. reflexivity. }
    rewrite Hhas. exists w. repeat split; reflexivity.
Qed.

Lemma to_parquet_rejects_categorical_witness :
  to_parquet example_env categorical_df "root" "cudf" (Some "snappy") None
    (Some ["grp"]) "ROWGROUP" None [] no_dataset_kwargs empty_world
  = (Raise UnsupportedCategoricalType, mkWorld ["root"; "root/grp=x"] [] 1 [])
  /\
  to_parquet example_env categorical_df "t.parquet" "cudf" (Some "snappy") None
    None "ROWGROUP" None [] no_dataset_kwargs empty_world
  = (Raise UnsupportedCategoricalType, empty_world).
Proof.
  assert (Hc : forall pcs, (pcs = Some ["grp"] \/ pcs = None) ->
               exists c, In c (columns categorical_df) /\ snd c = Category /\
                         data_column (default [] pcs) c).
  { intros pcs Hp. exists ("kind", Category). split; [simpl; auto|].
    split; [reflexivity|].
    destruct Hp as [-> | ->]; simpl; intros H;
      [destruct H as [H|[]]; discriminate|destruct H]. }
  split.
  - destruct (to_parquet_rejects_categorical example_env categorical_df "root"
                (Some "snappy") None (Some ["grp"]) "ROWGROUP" None []
                no_dataset_kwargs empty_world (Hc _ (or_introl eq_refl)))
      as [w' [Hrun _]].
    + intros _. split; [|split; [discriminate|reflexivity]].
      intros x [<-|[]]. simpl. auto.
    + rewrite Hrun. cbv in Hrun. now inversion Hrun.
  - destruct (to_parquet_rejects_categorical example_env categorical_df
                "t.parquet" (Some "snappy") None None "ROWGROUP" None []
                no_dataset_kwargs empty_world (Hc _ (or_intror eq_refl)))
      as [w' [Hrun [_ Hsame]]].
    + discriminate.
    + rewrite Hrun. now rewrite (Hsame eq_refl).
Defined.

(** C4 as stated fails: a table whose categorical column is the
    partition column is written by the accelerated path, one file per
    key. *)
Lemma to_parquet_rejects_categorical_counterexample :
  has_category categorical_key_df = true /\
  fst (to_parquet example_env categorical_key_df "root" "cudf" (Some "snappy")
         None (Some ["grp"]) "ROWGROUP" None [] no_dataset_kwargs empty_world)
  = Ok None /\
  map event_path
      (written (snd (to_parquet example_env categorical_key_df "root" "cudf"
                       (Some "snappy") None (Some ["grp"]) "ROWGROUP" None []
                       no_dataset_kwargs empty_world)))
  = ["root/grp=x/f0.parquet"; "root/grp=y/f1.parquet"].
Proof. repeat split. Qed.

(** ** [read_parquet]: what the CPU fallback does not look at *)

(** C9: for an engine other than ["cudf"], [read_parquet] gives the
    same result (and leaves the same world) whatever [row_group],
    [row_group_count], [skip_rows], [num_rows], [strings_to_categorical]
    and [use_pandas_metadata] are: only the path or buffer, [columns]
    and the extra arguments reach the reader. *)
Theorem read_parquet_fallback_ignores env filepath_or_buffer engine cols
    row_group row_group_count skip_rows num_rows strings_to_categorical
    use_pandas_metadata row_group' row_group_count' skip_rows' num_rows'
    strings_to_categorical' use_pandas_metadata' args kwargs w :
  engine <> "cudf" ->
  read_parquet env filepath_or_buffer engine cols row_group row_group_count
    skip_rows num_rows strings_to_categorical use_pandas_metadata args kwargs w
  = read_parquet env filepath_or_buffer engine cols row_group' row_group_count'
      skip_rows' num_rows' strings_to_categorical' use_pandas_metadata'
      args kwargs w.
Proof.
  intros Hengine. apply String.eqb_neq in Hengine.
  unfold read_parquet.
  destruct (get_filepath_or_buffer env filepath_or_buffer kwargs) as [fob c].
  destruct c; [reflexivity|].
  now rewrite Hengine.
Qed.

Lemma read_parquet_fallback_ignores_witness :
  "pyarrow" <> "cudf" /\
  read_parquet example_env "t.parquet" "pyarrow" (Some ["id"]) (Some 1) (Some 2)
    (Some 3) (Some 4) true false [] [] empty_world
  = read_parquet example_env "t.parquet" "pyarrow" (Some ["id"]) None None
      None None false true [] [] empty_world.
Proof.
  split; [discriminate|].
  apply (read_parquet_fallback_ignores example_env "t.parquet" "pyarrow").
  discriminate.
Defined.

(** ** The codec: what is written is read back *)

Lemma scalar_eqb_eq a b : scalar_eqb a b = true <-> a = b.
Proof. apply (cmp_eqb_eq scalar_compare). Qed.

Lemma distinct_values_in seen vs v :
  In v (distinct_values seen vs) <-> In v vs /\ ~ In v seen.
Proof.
  revert seen. induction vs as [|x vs IH]; intros seen; simpl; [tauto|].
  assert (Hseen : existsb (scalar_eqb x) seen = true <-> In x seen).
  { rewrite existsb_exists. split.
    - intros [y [Hy E]]. apply scalar_eqb_eq in E. now subst.
    - intros H. exists x. split; auto. now apply scalar_eqb_eq. }
  destruct (existsb (scalar_eqb x) seen) eqn:E.
  - rewrite IH. split; [tauto|]. intros [[<-|H] Hn]; [|tauto].
    exfalso. apply Hn. now apply Hseen.
  - assert (Hx : ~ In x seen) by (intros H; apply Hseen in H; congruence).
    simpl. rewrite IH. simpl. split.
    + intros [<-|[H Hn]]; [tauto|]. split; [tauto|].
      intros H'. apply Hn. now right.
    + intros [[<-|H] Hn]; [tauto|].
      destruct (scalar_eqb x v) eqn:Ev; [apply scalar_eqb_eq in Ev; tauto|].
      right. split; auto. intros [H'|H']; [|tauto].
      subst. rewrite (cmp_eqb_refl scalar_compare) in Ev. discriminate.
Qed.

Lemma index_of_lt v dict : In v dict -> index_of v dict < List.length dict.
Proof.
  induction dict as [|x dict IH]; simpl; [tauto|].
  intros H. destruct (scalar_eqb x v) eqn:E; [lia|].
  destruct H as [->|H].
  - rewrite (cmp_eqb_refl scalar_compare) in E. discriminate.
  - specialize (IH H). lia.
Qed.

Lemma nth_index_of v dict : In v dict -> nth (index_of v dict) dict SNull = v.
Proof.
  induction dict as [|x dict IH]; simpl; [tauto|].
  intros H. destruct (scalar_eqb x v) eqn:E.
  - now apply scalar_eqb_eq in E.
  - destruct H as [->|H]; auto.
    rewrite (cmp_eqb_refl scalar_compare) in E. discriminate.
Qed.

(** Section 4.1: decode gives back the values that were encoded. *)
Lemma decode_encode codec values :
  known_codec codec = true -> decode (encode codec values) = Ok values.
Proof.
  intros Hcodec. unfold encode.
  destruct (2 * _ <? _)%nat; simpl; rewrite Hcodec; [|reflexivity].
  assert (Hin : forall v, In v values -> In v (distinct_values [] values)).
  { intros v Hv. apply distinct_values_in. simpl. tauto. }
  replace (forallb _ (map _ values)) with true.
  - simpl. f_equal. rewrite map_map.
    transitivity (map (fun v : scalar => v) values); [|apply map_id].
    apply map_ext_in. intros v Hv. apply nth_index_of. auto.
  - symmetry. apply forallb_forall. intros i Hi.
    apply in_map_iff in Hi. destruct Hi as [v [<- Hv]].
    apply Nat.ltb_lt. apply index_of_lt. auto.
Qed.

Lemma map_result_ok {A B} (f : A -> result B) (g : A -> B) l :
  (forall a, In a l -> f a = Ok (g a)) -> map_result f l = Ok (map g l).
Proof.
  induction l as [|a l IH]; simpl; intros H; auto.
  rewrite (H a) by auto. simpl. rewrite IH; auto.
Qed.

Lemma map_nth_seq {A} (l : list A) d :
  map (fun i => nth i l d) (seq 0 (List.length l)) = l.
Proof.
  induction l as [|a l IH]; simpl; auto.
  f_equal. rewrite <- seq_shift, map_map. exact IH.
Qed.

(** Section 4.2: the rows of a row group come back from its chunks. *)
Lemma disassemble_assemble width codec (rs : list (list scalar)) :
  known_codec codec = true ->
  Forall (fun r => List.length r = width) rs ->
  disassemble (assemble width codec rs) = Ok rs.
Proof.
  intros Hcodec Hwidth. unfold disassemble, assemble. simpl.
  rewrite (map_result_ok decode
             (fun c => match decode c with Ok v => v | Raise _ => [] end)).
  - simpl. f_equal. rewrite map_map.
    transitivity (map (fun i => nth i rs []) (seq 0 (List.length rs)));
      [|apply map_nth_seq].
    apply map_ext_in. intros i Hi. apply in_seq in Hi.
    rewrite map_map.
    transitivity (map (fun j => nth j (nth i rs []) SNull) (seq 0 width)).
    + apply map_ext. intros j. rewrite decode_encode by assumption.
      rewrite <- (map_nth (fun r => nth j r SNull) rs [] i).
      now destruct j.
    + assert (Hrow : List.length (nth i rs []) = width).
      { rewrite Forall_forall in Hwidth. apply Hwidth. apply nth_In. lia. }
      rewrite <- Hrow. apply map_nth_seq.
  - intros c Hc. apply in_map_iff in Hc. destruct Hc as [j [<- _]].
    now rewrite decode_encode.
Qed.

(** Section 4.3: the row groups cut the rows in order, nothing lost. *)
Lemma row_group_slices_concat {A} fuel size (l : list A) :
  0 < size -> List.length l <= fuel ->
  concat (row_group_slices fuel size l) = l.
Proof.
  intros Hsize. revert l. induction fuel as [|fuel IH]; intros l Hlen.
  - destruct l; simpl in *; [reflexivity|lia].
  - destruct l as [|a l]; [reflexivity|].
    cbn [row_group_slices concat].
    rewrite IH.
    + apply firstn_skipn.
    + rewrite length_skipn. cbn [List.length] in *. lia.
Qed.

Lemma row_group_slices_forall {A} (P : A -> Prop) fuel size (l : list A) :
  Forall P l -> Forall (Forall P) (row_group_slices fuel size l).
Proof.
  revert l. induction fuel as [|fuel IH]; intros l Hl; [constructor|].
  destruct l as [|a l]; [constructor|].
  cbn [row_group_slices]. constructor.
  - rewrite Forall_forall in *. intros x Hx. apply Hl. eapply in_firstn; eauto.
  - apply IH. rewrite Forall_forall in *. intros x Hx. apply Hl.
    eapply in_skipn; eauto.
Qed.

Lemma find_file_last path f evs :
  find_file path (evs ++ [NativeWrite path f]) = Some f.
Proof.
  unfold find_file. rewrite fold_left_app. simpl.
  now rewrite String.eqb_refl.
Qed.

Lemma stored_rows_width df index :
  wf_df df ->
  Forall (fun r => List.length r = List.length (stored_schema df index))
         (stored_rows df index).
Proof.
  unfold wf_df, stored_rows, stored_schema. intros Hwf.
  destruct index as [[|]|]; rewrite Forall_map;
    (eapply Forall_impl; [|exact Hwf]); simpl; intros r Hr; congruence.
Qed.

(** The footer's row groups give back the stored rows. *)
Lemma read_row_groups env df index compression statistics :
  wf_df df ->
  known_codec compression = true ->
  let f := parquet_file env df index compression statistics in
  (let? gs := select_row_groups (pf_row_groups f) None None in
   let? rss := map_result disassemble gs in
   Ok (concat rss))%result
  = Ok (stored_rows df index).
Proof.
  intros Hwf Hcodec f.
  unfold select_row_groups. rewrite Nat.sub_0_r, Nat.add_0_l, Nat.leb_refl.
  cbn [rbind skipn]. rewrite firstn_all.
  unfold f, parquet_file. cbn [pf_row_groups].
  set (slices_ := row_group_slices _ _ _).
  rewrite (map_result_ok disassemble
             (fun g => match disassemble g with Ok v => v | Raise _ => [] end)).
  - cbn [rbind]. f_equal. rewrite map_map.
    rewrite (map_ext_in _ (fun x => x)).
    + rewrite map_id. unfold slices_. apply row_group_slices_concat; [lia|auto].
    + intros rs Hrs. rewrite disassemble_assemble; auto.
      pose proof (row_group_slices_forall _ (List.length (stored_rows df index))
                    (Pos.to_nat (row_group_size_rows env)) _
                    (stored_rows_width df index Hwf)) as Hall.
      rewrite Forall_forall in Hall. now apply Hall.
  - intros g Hg. apply in_map_iff in Hg. destruct Hg as [rs [<- Hrs]].
    rewrite disassemble_assemble; auto.
    pose proof (row_group_slices_forall _ (List.length (stored_rows df index))
                  (Pos.to_nat (row_group_size_rows env)) _
                  (stored_rows_width df index Hwf)) as Hall.
    rewrite Forall_forall in Hall. now apply Hall.
Qed.

Lemma restore_stored df index :
  let back := restore_index (true && stores_index index)
                            (stored_schema df index) (stored_rows df index) in
  columns back = columns df /\
  map cells (rows back) = map cells (rows df) /\
  (index <> Some false -> back = df).
Proof.
  assert (Hidx : index <> Some false ->
                 restore_index (true && stores_index index)
                   (stored_schema df index) (stored_rows df index) = df).
  { intros Hi. unfold stored_schema, stored_rows, stores_index.
    assert (Hrows : map (fun cs => mkRow match hd SNull cs with
                                         | SInt z => z
                                         | _ => 0%Z
                                         end (tl cs))
                        (map (fun r => SInt (label r) :: cells r) (rows df))
                    = rows df).
    { rewrite map_map. transitivity (map (fun r : Row => r) (rows df));
        [|apply map_id]. apply map_ext. now intros []. }
    destruct index as [[|]|]; try congruence;
      unfold restore_index; simpl; rewrite Hrows; now destruct df. }
  destruct index as [[|]|]; cbv zeta.
  - rewrite Hidx by discriminate. auto.
  - split; [reflexivity|]. split; [|congruence].
    unfold restore_index, stores_index, stored_rows, stored_schema.
    cbn [andb]. rewrite reset_index_cells. cbn [rows].
    rewrite map_map. cbn [cells]. apply map_id.
  - rewrite Hidx by discriminate. auto.
Qed.

(** C8 (as amended): a table without categorical columns, written by
    [to_parquet] with the accelerated engine (no partition columns, one
    of the enumerated codecs, a path the resolver passes through) and
    read back by [read_parquet] with the accelerated engine and its
    defaults, comes back with the same schema and the same values in
    the same row order, whatever the row-group size; with its index too
    unless [index] is [False]. *)
Theorem write_read_round_trip env df path compression index partition_cols
    statistics metadata_file_path args kwargs read_args read_kwargs w :
  wf_df df ->
  has_category df = false ->
  nonempty partition_cols = false ->
  known_codec compression = true ->
  get_filepath_or_buffer env path read_kwargs = (path, None) ->
  exists md w1 df',
    to_parquet env df path "cudf" compression index partition_cols statistics
      metadata_file_path args kwargs w = (Ok md, w1) /\
    read_parquet env path "cudf" None None None None None false true
      read_args read_kwargs w1 = (Ok df', w1) /\
    columns df' = columns df /\
    map cells (rows df') = map cells (rows df) /\
    (index <> Some false -> df' = df).
Proof.
  intros Hwf Hcat Hpart Hcodec Hpath.
  set (f := parquet_file env df index compression statistics).
  set (back := restore_index (true && stores_index index)
                             (stored_schema df index) (stored_rows df index)).
  exists (Some (file_metadata f metadata_file_path)),
    (add_write w (NativeWrite path f)), back.
  split.
  { unfold to_parquet, to_parquet_with.
    rewrite String.eqb_refl, Hpart, Hcat. reflexivity. }
  split.
  { unfold read_parquet. rewrite Hpath, String.eqb_refl.
    f_equal. unfold libparquet_read_parquet.
    cbn [add_write written]. rewrite find_file_last.
    pose proof (read_row_groups env df index compression statistics Hwf Hcodec)
      as Hread. cbv zeta in Hread. fold f in Hread.
    destruct (select_row_groups (pf_row_groups f) None None) as [gs|e];
      [|discriminate]. cbn [rbind] in *.
    destruct (map_result disassemble gs) as [rss|e]; [|discriminate].
    cbn [rbind] in *. inversion Hread as [Hrows]. rewrite Hrows.
    reflexivity. }
  apply restore_stored.
Qed.

Lemma write_read_round_trip_witness :
  exists md w1,
    to_parquet example_env example_df "t.parquet" "cudf" (Some "snappy") None
      None "ROWGROUP" None [] no_dataset_kwargs empty_world = (Ok md, w1) /\
    read_parquet example_env "t.parquet" "cudf" None None None None None
      false true [] [] w1 = (Ok example_df, w1).
Proof.
  destruct (write_read_round_trip example_env example_df "t.parquet"
              (Some "snappy") None None "ROWGROUP" None [] no_dataset_kwargs
              [] [] empty_world)
    as (md & w1 & df' & Hwrite & Hread & _ & _ & Hsame);
    try reflexivity.
  - repeat constructor.
  - exists md, w1. split; [exact Hwrite|].
    rewrite (Hsame ltac:(discriminate)) in Hread. exact Hread.
Defined.

(** C8 as stated fails: a table with a categorical column is not
    written by the accelerated engine, so there is nothing to read
    back. *)
Lemma write_read_round_trip_counterexample :
  wf_df categorical_df /\
  to_parquet example_env categorical_df "t.parquet" "cudf" (Some "snappy") None
    None "ROWGROUP" None [] no_dataset_kwargs empty_world
  = (Raise UnsupportedCategoricalType, empty_world) /\
  read_parquet example_env "t.parquet" "cudf" None None None None None
    false true [] [] empty_world
  = (Raise (FileNotFoundError "t.parquet"), empty_world).
Proof. split; [repeat constructor|split; reflexivity]. Qed.

(** ** The paths in the collected metadata *)

Lemma index_drop_incl names labels l :
  index_drop names labels = Ok l -> incl labels names.
Proof.
  unfold index_drop. destruct (filter _ labels) eqn:E; [|discriminate].
  intros _ x Hx. apply (proj1 (mem_spec x names)).
  destruct (mem x names) eqn:Hm; [reflexivity|]. exfalso.
  assert (H : In x (filter (fun l => negb (mem l names)) labels)).
  { apply filter_In. split; [exact Hx|]. now rewrite Hm. }
  rewrite E in H. destruct H.
Qed.

Lemma no_category_columns cols partition_cols :
  existsb is_category
          (filter (fun c => negb (mem (fst c) partition_cols)) cols) = false ->
  forall c, In c cols -> data_column partition_cols c -> snd c <> Category.
Proof.
  intros H c Hc Hdata Hcat.
  assert (Hex : existsb is_category
                  (filter (fun c => negb (mem (fst c) partition_cols)) cols)
                = true).
  { apply existsb_exists. exists c. split.
    - apply filter_In. split; auto. apply negb_true_iff. now apply mem_false.
    - unfold is_category. rewrite Hcat. reflexivity. }
  congruence.
Qed.

(** On the fallback path the inner call returns no metadata. *)
Lemma df_to_parquet_fallback_none env wdf path index mfp kwargs w r w' :
  accelerated kwargs = false ->
  df_to_parquet (to_parquet_with env no_dataset) wdf path index mfp kwargs w
  = (Ok r, w') ->
  r = None.
Proof.
  intros Hacc. unfold df_to_parquet.
  destruct (_ || _); [discriminate|].
  unfold to_parquet_with. unfold accelerated in Hacc. rewrite Hacc.
  destruct (_ || _); [discriminate|].
  unfold bind, log_write, ret.
  destruct (pq_write_to_dataset _ _ _ _ _ _); intros H; now inversion H.
Qed.

Lemma write_groups_fallback_none env fs root_path partition_cols preserve_index
    return_metadata kwargs groups :
  accelerated kwargs = false ->
  forall metadata w metadata' w',
    Forall (fun md => md = None) metadata ->
    write_groups env (to_parquet_with env no_dataset) fs root_path partition_cols
      preserve_index return_metadata kwargs groups metadata w
    = (Ok metadata', w') ->
    Forall (fun md => md = None) metadata'.
Proof.
  intros Hacc.
  induction groups as [|g groups IH]; intros metadata w metadata' w' Hmd H.
  - simpl in H. unfold ret in H. now inversion H; subst.
  - cbn [write_groups] in H.
    destruct (len g =? 0)%nat; [eapply IH; eauto|].
    unfold bind at 1 in H. destruct (lift _ w) as [[a|e] wa]; [|discriminate].
    unfold bind at 1 in H. destruct (mkdirs _ wa) as [[b|e] wb]; [|discriminate].
    unfold bind at 1 in H.
    destruct (fresh_guid env wb) as [[c|e] wc]; [|discriminate].
    unfold bind at 1 in H. destruct (lift _ wc) as [[d|e] wd]; [|discriminate].
    destruct return_metadata; unfold bind at 1 in H;
      destruct (df_to_parquet _ _ _ _ _ _ wd) as [[x|e] we] eqn:Hcall;
      try discriminate.
    + apply (df_to_parquet_fallback_none _ _ _ _ _ _ _ _ _ Hacc) in Hcall.
      subst x. eapply IH; [|exact H].
      apply Forall_app. split; [exact Hmd|]. now constructor.
    + eapply IH; eauto.
Qed.

(** An entry of [kwargs] that repeats an argument of the inner call
    stops the loop at the first group that has rows. *)
Lemma df_to_parquet_repeated to_parquet wdf path index m kwargs w :
  repeats_nothing kwargs = false ->
  df_to_parquet to_parquet wdf path index (Some m) kwargs w
  = (Raise TypeError, w).
Proof.
  unfold repeats_nothing, df_to_parquet. intros H.
  apply negb_false_iff in H. rewrite andb_true_l, H. reflexivity.
Qed.

(** C7: in a partitioned write with metadata requested, every
    FileMetadata collected carries the path
    [col1=val1/.../<guid>.parquet] of a key of the data, the
    subdirectory of the key joined with the file name; the file it
    describes was written at the root path joined with that relative
    path, so the embedded path is the file's path without the root
    prefix. *)
Theorem metadata_file_path_relative env df root_path partition_cols fs
    preserve_index kwargs w metadata w' :
  partition_cols <> [] ->
  collect_metadata env (to_parquet_with env no_dataset) df root_path
    (Some partition_cols) fs preserve_index true kwargs w = (Ok metadata, w') ->
  exists pos,
    col_indices partition_cols (columns df) = Ok pos /\
    Forall
      (fun md =>
         forall m, md = Some m ->
         exists k n file relative,
           (exists row, In row (rows df) /\ project pos row = k) /\
           relative = (String.concat (sep fs) (segments partition_cols k) ++
                       sep fs ++ guid env n ++ ".parquet")%string /\
           md_file_path m = Some relative /\
           m = file_metadata file (Some relative) /\
           In (NativeWrite (root_path ++ sep fs ++ relative)%string file)
              (written w'))
      metadata.
Proof.
  intros Hne Hrun.
  pose proof Hrun as Hrun0.
  rewrite collect_metadata_some in Hrun by exact Hne.
  unfold bind at 1 in Hrun. unfold lift at 1 in Hrun.
  destruct (index_drop (column_names df) partition_cols) as [data_cols|e]
    eqn:Hdrop; [|discriminate].
  pose proof (index_drop_incl _ _ _ Hdrop) as Hincl.
  rewrite (index_drop_ok _ _ Hincl) in Hdrop. inversion Hdrop; subst data_cols.
  destruct (List.length _ =? 0)%nat eqn:Hlen; [discriminate|].
  assert (Hdata : exists c, In c (column_names df) /\ ~ In c partition_cols).
  { destruct (filter _ (column_names df)) as [|c rest] eqn:Ef; [discriminate|].
    assert (Hc : In c (filter (fun n => negb (mem n partition_cols))
                              (column_names df))) by (rewrite Ef; now left).
    apply filter_In in Hc. destruct Hc as [Hc Hm].
    exists c. split; auto. apply negb_true_iff in Hm. now apply mem_false. }
  destruct (col_indices_ok partition_cols (columns df) Hincl) as [pos Hpos].
  exists pos. split; [exact Hpos|].
  destruct (partition_groups_of_keys df partition_cols preserve_index pos Hpos)
    as (groups & keys & Hgroups & _ & Hgk).
  unfold bind at 1 in Hrun. unfold lift at 1 in Hrun. rewrite Hgroups in Hrun.
  destruct (accelerated kwargs) eqn:Hacc.
  2:{ apply (write_groups_fallback_none _ _ _ _ _ _ _ _ Hacc) in Hrun;
        [|constructor].
      eapply Forall_impl; [|exact Hrun]. intros md -> m Hm. discriminate. }
  destruct (repeats_nothing kwargs) eqn:Hrep.
  2:{ destruct Hgk as [|g k groups keys [Hrows [Hcols Hkey]] Hgk].
      - simpl in Hrun. inversion Hrun. constructor.
      - exfalso. destruct (rows g) as [|r rest] eqn:Er; [contradiction|].
        cbn [write_groups] in Hrun. unfold len in Hrun. rewrite Er in Hrun.
        cbn [List.length Nat.eqb] in Hrun.
        unfold bind at 1 in Hrun.
        destruct (lift _ w) as [[a|e] wa]; [|discriminate].
        unfold bind at 1 in Hrun.
        destruct (mkdirs _ wa) as [[b|e] wb]; [|discriminate].
        unfold bind at 1 in Hrun.
        destruct (fresh_guid env wb) as [[c|e] wc]; [|discriminate].
        unfold bind at 1 in Hrun.
        destruct (lift _ wc) as [[d|e] wd]; [|discriminate].
        unfold bind at 1 in Hrun.
        rewrite (df_to_parquet_repeated _ _ _ _ _ _ _ Hrep) in Hrun.
        discriminate. }
  destruct (existsb is_category
              (filter (fun c => negb (mem (fst c) partition_cols)) (columns df)))
    eqn:Hcat.
  - destruct Hgk as [|g k groups keys Hg Hgk].
    + simpl in Hrun. inversion Hrun. constructor.
    + assert (Hhas : has_category (without_columns g partition_cols) = true).
      { destruct Hg as [_ [Hcols _]].
        unfold has_category, without_columns. cbn [columns]. now rewrite Hcols. }
      rewrite (write_groups_rejects env fs root_path partition_cols
                 preserve_index true kwargs (columns df) pos g k groups [] w
                 Hpos Hincl Hg Hacc Hrep Hhas) in Hrun.
      discriminate.
  - pose proof (no_category_columns _ _ Hcat) as Hnocat.
    destruct (collect_metadata_partitioned env df root_path partition_cols fs
                preserve_index true kwargs Hne Hincl Hdata Hacc Hrep Hnocat)
      as (pos' & groups' & keys' & Hpos' & _ & _ & Hcover & _ & Hall).
    rewrite Hpos in Hpos'. inversion Hpos'; subst pos'.
    rewrite (Hall w) in Hrun0. cbv zeta in Hrun0.
    inversion Hrun0 as [[Hmd Hw]]. clear Hrun0 Hrun.
    rewrite Forall_map, Forall_forall. intros [n [g k]] Hin m Hm.
    unfold metadata_of, returned_by in Hm.
    inversion Hm as [Hm']. clear Hm.
    eexists k, n, _, _.
    split.
    { apply Hcover. apply in_combine_r in Hin. now apply in_combine_r in Hin. }
    split; [reflexivity|].
    cbn [file_metadata md_file_path].
    unfold relative_path_of, subdir_of, outfile_of.
    rewrite sep_join_pair. unfold sep_join.
    split; [reflexivity|]. split; [reflexivity|].
    cbn [written]. apply in_or_app. right.
    apply in_map_iff. exists (n, (g, k)). split; [|exact Hin].
    unfold write_of, written_by.
    unfold full_path_of, subdir_of, outfile_of.
    rewrite !sep_join_pair. unfold sep_join.
    now rewrite !string_app_assoc.
Qed.

(** The list [metadata] is what the last statement of
    [write_to_dataset] merges. *)
Lemma write_to_dataset_collects env df root_path partition_cols fs
    preserve_index return_metadata kwargs w :
  write_to_dataset env df root_path partition_cols fs preserve_index
    return_metadata kwargs w
  = match collect_metadata env (to_parquet_with env no_dataset) df root_path
            partition_cols (_ensure_filesystem env fs root_path) preserve_index
            return_metadata kwargs
            (mkWorld (dirs w ++ [root_path]) (written w) (guids w) (warnings w))
    with
    | (Ok metadata, w') => return_merged metadata w'
    | (Raise e, w') => (Raise e, w')
    end.
Proof. reflexivity. Qed.

Lemma metadata_file_path_relative_witness :
  exists metadata w',
    collect_metadata example_env (to_parquet_with example_env no_dataset)
      example_df "root" (Some ["grp"]) local_fs None true no_kwargs
      (mkWorld ["root"] [] 0 []) = (Ok metadata, w') /\
    map (option_map md_file_path) metadata
      = [Some (Some "grp=x/f0.parquet"); Some (Some "grp=y/f1.parquet")] /\
    map event_path (written w')
      = ["root/grp=x/f0.parquet"; "root/grp=y/f1.parquet"] /\
    Forall (fun md => forall m, md = Some m -> md_file_path m <> None) metadata.
Proof.
  eexists _, _. split; [cbv; reflexivity|].
  split; [reflexivity|]. split; [reflexivity|].
  destruct (metadata_file_path_relative example_env example_df "root" ["grp"]
              local_fs None no_kwargs (mkWorld ["root"] [] 0 []) _ _
              ltac:(discriminate) eq_refl)
    as (pos & _ & Hall).
  eapply Forall_impl; [|exact Hall].
  intros md H m Hm. destruct (H m Hm) as (k & n & file & rel & _ & _ & Hp & _).
  rewrite Hp. discriminate.
Defined.

(** * Further properties of the module *)

(** ** [_get_partition_groups]: order, index and shape of the groups *)

(** What a successful call has computed. *)
Lemma partition_groups_inversion df partition_cols preserve_index groups :
  _get_partition_groups df partition_cols preserve_index = Ok groups ->
  exists pos frame splits keys,
    col_indices partition_cols (columns df) = Ok pos /\
    frame = (if truthy preserve_index
             then mkDF (columns df) (sort_rows pos (rows df))
             else reset_index (mkDF (columns df) (sort_rows pos (rows df)))) /\
    groups = map (mkDF (columns df)) (slices (rows frame) splits) /\
    concat (slices (rows frame) splits) = rows frame /\
    NoDup keys /\
    Forall2 (fun g k => g <> [] /\ Forall (fun r => project pos r = k) g)
            (slices (rows frame) splits) keys.
Proof.
  intros Hret.
  destruct (col_indices partition_cols (columns df)) as [pos|e] eqn:Hpos.
  2:{ unfold _get_partition_groups, sort_values in Hret.
      rewrite Hpos in Hret. discriminate. }
  destruct (partition_groups_structure df partition_cols preserve_index pos Hpos)
    as (splits & keys & Hgroups & _ & _ & _ & _ & Hconcat & Hnd & _ & Hruns).
  rewrite Hgroups in Hret. inversion Hret as [Hg]. clear Hret.
  exists pos. eexists _, splits, keys.
  split; [reflexivity|]. split; [reflexivity|].
  destruct (truthy preserve_index); simpl negb in *; cbv iota in *; auto.
Qed.

Lemma concat_group_rows cols (gs : list (list Row)) :
  concat (map rows (map (mkDF cols) gs)) = concat gs.
Proof. rewrite map_map. simpl. now rewrite map_id. Qed.

Lemma forall2_in_right {A B} (P : A -> B -> Prop) l l' b :
  Forall2 P l l' -> In b l' -> exists a, In a l /\ P a b.
Proof.
  induction 1 as [|a b' l l' Hab _ IH]; intros Hin; [destruct Hin|].
  destruct Hin as [->|Hin].
  - exists a. split; [now left|assumption].
  - destruct (IH Hin) as [a' [Ha' Hp]]. exists a'. split; [now right|assumption].
Qed.

(** Runs of equal keys that concatenate to a sorted list come in
    non-decreasing order of their keys. *)
Lemma runs_keys_sorted pos (gs : list (list Row)) (ks : list key) :
  Forall2 (fun g k => g <> [] /\ Forall (fun r => project pos r = k) g) gs ks ->
  StronglySorted key_le (map (project pos) (concat gs)) ->
  StronglySorted key_le ks.
Proof.
  induction 1 as [|g k gs ks [Hne Hall] Hrest IH]; intros Hs; [constructor|].
  simpl in Hs. rewrite map_app in Hs.
  destruct (strongly_sorted_app _ _ _ Hs) as [Htail Hcross].
  constructor; [now apply IH|].
  rewrite Forall_forall. intros k' Hk'.
  destruct (forall2_in_right _ _ _ _ Hrest Hk') as [g' [Hg' [Hne' Hall']]].
  destruct g as [|r g]; [contradiction|].
  destruct g' as [|r' g'0] eqn:Eg'; [contradiction|].
  inversion Hall as [|? ? Hr _]; subst.
  inversion Hall' as [|? ? Hr' _]; subst.
  apply Hcross.
  - simpl. now left.
  - apply in_map. apply in_concat. exists (r' :: g'0). split; [assumption|now left].
Qed.

Lemma sorted_frame_keys df pos preserve_index :
  StronglySorted key_le
    (map (project pos)
         (rows (if truthy preserve_index
                then mkDF (columns df) (sort_rows pos (rows df))
                else reset_index (mkDF (columns df) (sort_rows pos (rows df)))))).
Proof.
  destruct (truthy preserve_index).
  - apply sorted_by_keys. apply sort_rows_sorted.
  - rewrite (project_cells pos _ _ (reset_index_cells _)).
    apply sorted_by_keys. apply sort_rows_sorted.
Qed.

(** X1: the groups come out in strictly increasing order of their
    partition key (compared column by column, nulls last): each group
    holds the rows of one key, and the keys of consecutive groups
    increase. *)
Theorem partition_groups_key_order df partition_cols preserve_index groups :
  _get_partition_groups df partition_cols preserve_index = Ok groups ->
  exists pos keys,
    col_indices partition_cols (columns df) = Ok pos /\
    StronglySorted key_lt keys /\
    Forall2 (fun g k => rows g <> [] /\
                        Forall (fun r => project pos r = k) (rows g))
            groups keys.
Proof.
  intros Hret.
  destruct (partition_groups_inversion _ _ _ _ Hret)
    as (pos & frame & splits & keys & Hpos & Hframe & Hgroups & Hconcat
        & Hnd & Hruns).
  exists pos, keys. split; [exact Hpos|]. split.
  - apply sorted_nodup_strict; [|exact Hnd].
    apply (runs_keys_sorted pos _ _ Hruns).
    rewrite Hconcat, Hframe. apply sorted_frame_keys.
  - subst groups. clear - Hruns. induction Hruns; constructor; auto.
Qed.

Lemma partition_groups_key_order_witness :
  exists groups keys,
    _get_partition_groups example_df ["grp"] None = Ok groups /\
    StronglySorted key_lt keys /\
    Forall2 (fun g k => rows g <> [] /\
                        Forall (fun r => project [1] r = k) (rows g))
            groups keys.
Proof.
  eexists. 
  destruct (partition_groups_key_order example_df ["grp"] None _ eq_refl)
    as (pos & keys & Hpos & Hsorted & Hall).
  simpl in Hpos. inversion Hpos; subst pos.
  exists keys. split; [reflexivity|]. split; assumption.
Defined.

Lemma reset_rows_labels (l : list Row) s :
  map label (map (fun '(i, r) => mkRow (Z.of_nat i) (cells r))
                 (combine (seq s (List.length l)) l))
  = map Z.of_nat (seq s (List.length l)).
Proof.
  revert s. induction l as [|r l IH]; intros s; simpl; auto.
  f_equal. apply IH.
Qed.

Lemma partition_groups_cells df partition_cols preserve_index groups :
  _get_partition_groups df partition_cols preserve_index = Ok groups ->
  Permutation (map cells (rows df)) (map cells (concat (map rows groups))).
Proof.
  intros Hret.
  destruct (partition_groups_inversion _ _ _ _ Hret)
    as (pos & frame & splits & keys & Hpos & Hframe & Hgroups & Hconcat & _).
  subst groups. rewrite concat_group_rows, Hconcat. subst frame.
  pose proof (sort_rows_perm pos (rows df)) as Hperm.
  destruct (truthy preserve_index).
  - now apply Permutation_map.
  - rewrite reset_index_cells. now apply Permutation_map.
Qed.

Lemma partition_groups_columns df partition_cols preserve_index groups :
  _get_partition_groups df partition_cols preserve_index = Ok groups ->
  forall g, In g groups -> columns g = columns df.
Proof.
  intros Hret.
  destruct (partition_groups_inversion _ _ _ _ Hret)
    as (pos & frame & splits & keys & _ & _ & Hgroups & _).
  subst groups. intros g Hg. apply in_map_iff in Hg.
  now destruct Hg as [x [<- _]].
Qed.

(** X2: the groups hold the rows of the input, none lost and none
    twice; with [preserve_index] the rows keep their index labels, and
    without it the labels are 0, 1, ..., len(df)-1 in the order of the
    concatenated groups. *)
Theorem partition_groups_rows_and_index df partition_cols preserve_index groups :
  _get_partition_groups df partition_cols preserve_index = Ok groups ->
  Permutation (map cells (rows df)) (map cells (concat (map rows groups))) /\
  (truthy preserve_index = true ->
   Permutation (rows df) (concat (map rows groups))) /\
  (truthy preserve_index = false ->
   map label (concat (map rows groups)) = map Z.of_nat (seq 0 (len df))).
Proof.
  intros Hret.
  split; [now apply partition_groups_cells in Hret|].
  destruct (partition_groups_inversion _ _ _ _ Hret)
    as (pos & frame & splits & keys & Hpos & Hframe & Hgroups & Hconcat & _).
  subst groups. rewrite concat_group_rows, Hconcat. subst frame.
  pose proof (sort_rows_perm pos (rows df)) as Hperm.
  split.
  - intros Ht. now rewrite Ht.
  - intros Ht. rewrite Ht. unfold reset_index. cbn [rows].
    rewrite reset_rows_labels. unfold len.
    now rewrite (Permutation_length Hperm).
Qed.

Lemma partition_groups_rows_and_index_witness :
  exists groups,
    _get_partition_groups example_df ["grp"] None = Ok groups /\
    map label (concat (map rows groups)) = [0; 1; 2; 3]%Z /\
    Permutation (map cells (rows example_df))
                (map cells (concat (map rows groups))).
Proof.
  eexists. split; [reflexivity|].
  destruct (partition_groups_rows_and_index example_df ["grp"] None _ eq_refl)
    as (Hcells & _ & Hlabels).
  split; [exact (Hlabels eq_refl)|exact Hcells].
Defined.

(** X3: every group has the schema of the input, partition columns
    included, and the sizes of the groups add up to len(df). *)
Theorem partition_groups_shape df partition_cols preserve_index groups :
  _get_partition_groups df partition_cols preserve_index = Ok groups ->
  Forall (fun g => columns g = columns df) groups /\
  list_sum (map len groups) = len df.
Proof.
  intros Hret.
  pose proof (partition_groups_cells _ _ _ _ Hret) as Hcells.
  split.
  - rewrite Forall_forall. exact (partition_groups_columns _ _ _ _ Hret).
  - apply Permutation_length in Hcells. rewrite !length_map in Hcells.
    unfold len at 2. rewrite Hcells, length_concat, map_map. reflexivity.
Qed.

Lemma partition_groups_shape_witness :
  exists groups,
    _get_partition_groups example_df ["grp"] None = Ok groups /\
    Forall (fun g => columns g = columns example_df) groups /\
    list_sum (map len groups) = 4.
Proof.
  eexists. split; [reflexivity|].
  exact (partition_groups_shape example_df ["grp"] None _ eq_refl).
Defined.

(** ** [write_to_dataset] without partition columns *)

Lemma df_to_parquet_writes env wdf path index mfp kwargs w :
  accelerated kwargs = true ->
  repeats_nothing kwargs = true ->
  has_category wdf = false ->
  df_to_parquet (to_parquet_with env no_dataset) wdf path index mfp kwargs w
  = (Ok (returned_by env wdf index mfp kwargs),
     add_write w (written_by env wdf path index kwargs)).
Proof.
  intros Hacc Hrep. now apply (df_to_parquet_inner env kwargs).
Qed.

Lemma collect_metadata_unpartitioned env to_parquet df root_path partition_cols
    fs preserve_index return_metadata kwargs :
  nonempty partition_cols = false ->
  collect_metadata env to_parquet df root_path partition_cols fs preserve_index
    return_metadata kwargs
  = collect_metadata env to_parquet df root_path None fs preserve_index
      return_metadata kwargs.
Proof.
  intros H. destruct partition_cols as [[|p ps]|]; try reflexivity.
  discriminate.
Qed.

(** X4: without partition columns ([None] or an empty list), on the
    accelerated path and with keyword arguments that repeat no argument
    of the inner call, [write_to_dataset] creates the root directory
    and writes the whole frame, all columns kept, to one file
    [root/<guid>.parquet]; with metadata requested it returns that
    file's metadata, made for the bare file name, and otherwise
    [None]. *)
Theorem write_to_dataset_single_file env df root_path partition_cols fs
    preserve_index return_metadata kwargs w :
  nonempty partition_cols = false ->
  accelerated kwargs = true ->
  repeats_nothing kwargs = true ->
  has_category df = false ->
  write_to_dataset env df root_path partition_cols fs preserve_index
    return_metadata kwargs w
  = (Ok (if return_metadata
         then Some (file_metadata (file_of env df preserve_index kwargs)
                      (Some (guid env (guids w) ++ ".parquet")%string))
         else None),
     mkWorld (dirs w ++ [root_path])
       (written w ++
        [NativeWrite
           (root_path ++ sep (_ensure_filesystem env fs root_path) ++
            guid env (guids w) ++ ".parquet")%string
           (file_of env df preserve_index kwargs)])
       (S (guids w)) (warnings w)).
Proof.
  intros Hpart Hacc Hrep Hcat.
  rewrite write_to_dataset_collects.
  rewrite collect_metadata_unpartitioned by exact Hpart.
  unfold collect_metadata.
  unfold bind at 1. unfold fresh_guid at 1. cbn [guids dirs written warnings].
  rewrite sep_join_pair.
  destruct return_metadata; unfold bind at 1;
    rewrite (df_to_parquet_writes _ _ _ _ _ _ _ Hacc Hrep Hcat); reflexivity.
Qed.

Lemma write_to_dataset_single_file_witness :
  exists md w',
    write_to_dataset example_env example_df "root" (Some []) None None true
      no_kwargs empty_world = (Ok (Some md), w') /\
    md_file_path md = Some "f0.parquet" /\
    map event_path (written w') = ["root/f0.parquet"] /\
    dirs w' = ["root"].
Proof.
  eexists _, _. split.
  - apply (write_to_dataset_single_file example_env example_df "root" (Some [])
             None None true no_kwargs empty_world); reflexivity.
  - repeat split.
Defined.

(** X5: on the accelerated path, with keyword arguments that repeat no
    argument of the inner call, a table with a categorical column is
    not written by the unpartitioned [write_to_dataset]: it raises
    [UnsupportedCategoricalType] after it has created the root directory
    and drawn a file name, and no file is written. *)
Theorem write_to_dataset_single_file_categorical env df root_path
    partition_cols fs preserve_index return_metadata kwargs w :
  nonempty partition_cols = false ->
  accelerated kwargs = true ->
  repeats_nothing kwargs = true ->
  has_category df = true ->
  write_to_dataset env df root_path partition_cols fs preserve_index
    return_metadata kwargs w
  = (Raise UnsupportedCategoricalType,
     mkWorld (dirs w ++ [root_path]) (written w) (S (guids w)) (warnings w)).
Proof.
  intros Hpart Hacc Hrep Hcat.
  rewrite write_to_dataset_collects.
  rewrite collect_metadata_unpartitioned by exact Hpart.
  unfold collect_metadata.
  unfold bind at 1. unfold fresh_guid at 1. cbn [guids dirs written warnings].
  destruct return_metadata; unfold bind at 1;
    rewrite (df_to_parquet_rejects _ _ _ _ _ _ _ Hacc Hrep Hcat); reflexivity.
Qed.

Lemma write_to_dataset_single_file_categorical_witness :
  write_to_dataset example_env categorical_df "root" None None None false
    no_kwargs empty_world
  = (Raise UnsupportedCategoricalType, mkWorld ["root"] [] 1 []).
Proof.
  apply (write_to_dataset_single_file_categorical example_env categorical_df
           "root" None None None false no_kwargs empty_world); reflexivity.
Defined.

(** ** [write_to_dataset] with partition columns: errors and edges *)

Lemma absent_labels names labels :
  ~ incl labels names ->
  filter (fun l => negb (mem l names)) labels <> [].
Proof.
  intros Hnot Hnil. apply Hnot. intros x Hx.
  apply (proj1 (mem_spec x names)).
  destruct (mem x names) eqn:Hm; [reflexivity|]. exfalso.
  assert (H : In x (filter (fun l => negb (mem l names)) labels)).
  { apply filter_In. split; [exact Hx|]. now rewrite Hm. }
  rewrite Hnil in H. destruct H.
Qed.

(** X6: when some partition column is not a column of the table,
    [write_to_dataset] raises the [KeyError] of
    [df.columns.drop(partition_cols)], which names the absent partition
    columns, all of them and in the order given; it has created the
    root directory by then and nothing else: no grouping, no file name,
    no write, whatever the keyword arguments. *)
Theorem missing_partition_column env df root_path partition_cols fs
    preserve_index return_metadata kwargs w :
  partition_cols <> [] ->
  ~ incl partition_cols (column_names df) ->
  exists absent,
    absent = filter (fun name => negb (mem name (column_names df)))
                    partition_cols /\
    absent <> [] /\
    (forall name, In name absent <->
                  In name partition_cols /\ ~ In name (column_names df)) /\
    write_to_dataset env df root_path (Some partition_cols) fs preserve_index
      return_metadata kwargs w
    = (Raise (KeyErrorLabels absent),
       mkWorld (dirs w ++ [root_path]) (written w) (guids w) (warnings w)).
Proof.
  intros Hne Hnot.
  pose proof (absent_labels _ _ Hnot) as Habsent.
  eexists. split; [reflexivity|]. split; [exact Habsent|]. split.
  - intros name. rewrite filter_In, negb_true_iff. now rewrite mem_false.
  - rewrite write_to_dataset_collects.
    rewrite collect_metadata_some by exact Hne.
    unfold bind at 1. unfold lift at 1. unfold index_drop.
    destruct (filter _ partition_cols) as [|l absent]; [contradiction|].
    reflexivity.
Qed.

Lemma missing_partition_column_witness :
  write_to_dataset example_env example_df "root" (Some ["id"; "year"; "day"])
    None None false no_kwargs empty_world
  = (Raise (KeyErrorLabels ["year"; "day"]), mkWorld ["root"] [] 0 []).
Proof.
  destruct (missing_partition_column example_env example_df "root"
              ["id"; "year"; "day"] None None false no_kwargs empty_world)
    as (absent & Habsent & _ & _ & Hwrite).
  - discriminate.
  - intros H. specialize (H "year"). simpl in H.
    destruct H as [H|[H|[]]]; try discriminate. auto.
  - rewrite Hwrite, Habsent. reflexivity.
Defined.

(** X7: a table without rows, partitioned by columns it has, gives no
    group: [write_to_dataset] creates the root directory, writes no
    file, draws no file name and returns [None], also when metadata is
    requested. *)
Theorem write_to_dataset_no_rows env df root_path partition_cols fs
    preserve_index return_metadata kwargs w :
  partition_cols <> [] ->
  incl partition_cols (column_names df) ->
  (exists c, In c (column_names df) /\ ~ In c partition_cols) ->
  rows df = [] ->
  _get_partition_groups df partition_cols preserve_index = Ok [] /\
  write_to_dataset env df root_path (Some partition_cols) fs preserve_index
    return_metadata kwargs w
  = (Ok None,
     mkWorld (dirs w ++ [root_path]) (written w) (guids w) (warnings w)).
Proof.
  intros Hne Hincl Hdata Hrows.
  destruct (col_indices_ok partition_cols (columns df) Hincl) as [pos Hpos].
  destruct (partition_groups_of_keys df partition_cols preserve_index pos Hpos)
    as (groups & keys & Hgroups & Hcover & Hgk).
  assert (Hkeys : keys = []).
  { destruct keys as [|k keys]; auto. exfalso.
    rewrite Hrows in Hcover. apply (proj1 (Hcover k)). now left. }
  subst keys. inversion Hgk; subst groups.
  split; [exact Hgroups|].
  rewrite write_to_dataset_collects.
  rewrite collect_metadata_some by exact Hne.
  unfold bind at 1. unfold lift at 1.
  rewrite (index_drop_ok _ _ Hincl), (data_columns_left _ _ Hdata).
  unfold bind at 1. unfold lift at 1. rewrite Hgroups. reflexivity.
Qed.

Lemma write_to_dataset_no_rows_witness :
  write_to_dataset example_env (mkDF (columns example_df) []) "root"
    (Some ["grp"]) None None true no_kwargs empty_world
  = (Ok None, mkWorld ["root"] [] 0 []).
Proof.
  apply (write_to_dataset_no_rows example_env (mkDF (columns example_df) [])
           "root" ["grp"] None None true no_kwargs empty_world).
  - discriminate.
  - exact example_incl.
  - exact example_data_left.
  - reflexivity.
Defined.

(** X8: a partitioned write on the accelerated path, with keyword
    arguments that repeat no argument of the inner call, creates the
    root directory and then one directory [root/col1=val1/...] per
    distinct key, draws one file name per key, emits no warning, and
    every file it writes lies directly in one of the directories it
    created. *)
Theorem write_to_dataset_directories env df root_path partition_cols fs
    preserve_index return_metadata kwargs w :
  partition_cols <> [] ->
  incl partition_cols (column_names df) ->
  (exists c, In c (column_names df) /\ ~ In c partition_cols) ->
  accelerated kwargs = true ->
  repeats_nothing kwargs = true ->
  (forall c, In c (columns df) -> data_column partition_cols c ->
             snd c <> Category) ->
  exists pos keys r w' files fs',
    fs' = _ensure_filesystem env fs root_path /\
    col_indices partition_cols (columns df) = Ok pos /\
    NoDup keys /\
    (forall k, In k keys <-> exists row, In row (rows df) /\ project pos row = k) /\
    write_to_dataset env df root_path (Some partition_cols) fs preserve_index
      return_metadata kwargs w = (r, w') /\
    dirs w' =
      dirs w ++ root_path ::
      map (fun k => (root_path ++ sep fs' ++
                     String.concat (sep fs') (segments partition_cols k))%string)
          keys /\
    guids w' = guids w + List.length keys /\
    warnings w' = warnings w /\
    written w' = written w ++ files /\
    List.length files = List.length keys /\
    Forall (fun e => exists d n file,
                In d (dirs w') /\
                e = NativeWrite (d ++ sep fs' ++ guid env n ++ ".parquet")%string
                      file)
           files.
Proof.
  intros Hne Hincl Hdata Hacc Hrep Hcat.
  set (fs' := _ensure_filesystem env fs root_path).
  destruct (collect_metadata_partitioned env df root_path partition_cols fs'
              preserve_index return_metadata kwargs Hne Hincl Hdata Hacc Hrep
              Hcat)
    as (pos & groups & keys & Hpos & _ & Hnd & Hcover & Hgk & Hrun).
  set (w1 := mkWorld (dirs w ++ [root_path]) (written w) (guids w) (warnings w)).
  specialize (Hrun w1). cbv zeta in Hrun. cbn [guids w1] in Hrun.
  exists pos, keys. eexists _, _, _, fs'.
  split; [reflexivity|]. split; [exact Hpos|]. split; [exact Hnd|].
  split; [exact Hcover|].
  split.
  { rewrite write_to_dataset_collects. fold fs' w1. rewrite Hrun.
    apply surjective_pairing. }
  rewrite return_merged_world. cbn [dirs written guids warnings w1].
  split; [now rewrite <- app_assoc|].
  split; [reflexivity|]. split; [reflexivity|]. split; [reflexivity|].
  apply Forall2_length in Hgk.
  split.
  { rewrite length_map, length_combine, length_seq, length_combine. lia. }
  rewrite Forall_map, Forall_forall. intros [n [g k]] Hin.
  exists (sep_join fs' [root_path; subdir_of fs' partition_cols k]), n.
  eexists. split.
  - apply in_or_app. right. apply in_map_iff. exists k.
    split; [reflexivity|].
    apply in_combine_r in Hin. now apply in_combine_r in Hin.
  - unfold write_of, written_by.
    unfold full_path_of. now rewrite sep_join_pair.
Qed.

Lemma write_to_dataset_directories_witness :
  exists w',
    snd (write_to_dataset example_env example_df "root" (Some ["grp"]) None None
           false no_kwargs empty_world) = w' /\
    List.length (dirs w') = 3 /\
    guids w' = 2.
Proof.
  destruct (write_to_dataset_directories example_env example_df "root"
              ["grp"] None None false no_kwargs empty_world
              ltac:(discriminate) example_incl example_data_left
              eq_refl eq_refl example_no_category)
    as (pos & keys & r & w' & files & fs' & _ & _ & _ & _ & Hrun & Hdirs
        & Hguids & _ & Hwritten & Hlen & _).
  exists w'. split; [now rewrite Hrun|].
  assert (Hw : w' = snd (write_to_dataset example_env example_df "root"
                           (Some ["grp"]) None None false no_kwargs empty_world))
    by now rewrite Hrun.
  rewrite Hw. split; reflexivity.
Defined.

(** ** What the partitioned write puts into the files *)

Lemma col_index_in name cols i :
  col_index name cols = Some i -> In name (map fst cols).
Proof.
  revert i. induction cols as [|[n d] cols IH]; simpl; [discriminate|].
  intros i. destruct (String.eqb n name) eqn:E.
  - apply String.eqb_eq in E. auto.
  - destruct (col_index name cols); [|discriminate]. intros _. right. eauto.
Qed.

Lemma col_indices_incl names cols pos :
  col_indices names cols = Ok pos -> incl names (map fst cols).
Proof.
  revert pos. induction names as [|n names IH]; simpl; intros pos H x Hx;
    [destruct Hx|].
  destruct (col_index n cols) eqn:Hn; [|discriminate].
  destruct (col_indices names cols) eqn:Hrest; [|discriminate].
  destruct Hx as [<-|Hx]; [eapply col_index_in; eauto|eapply IH; eauto].
Qed.

Lemma without_columns_cells g cols labels :
  columns g = cols ->
  map cells (rows (without_columns g labels))
  = map (drop_cells (map (fun c => negb (mem (fst c) labels)) cols))
        (map cells (rows g)).
Proof.
  intros <-. unfold without_columns. cbn [rows]. now rewrite !map_map.
Qed.

Lemma dropped_groups_cells cols labels (groups : list DataFrame) :
  (forall g, In g groups -> columns g = cols) ->
  map (drop_cells (map (fun c => negb (mem (fst c) labels)) cols))
      (map cells (concat (map rows groups)))
  = map cells
        (concat (map rows (map (fun g => without_columns g labels) groups))).
Proof.
  intros Hcols. induction groups as [|g groups IH]; [reflexivity|].
  rewrite !map_cons, !concat_cons, !map_app. f_equal.
  - symmetry. apply without_columns_cells. apply Hcols. now left.
  - apply IH. intros x Hx. apply Hcols. now right.
Qed.

(** X9: dropping the partition columns from the groups, as the loop
    does before each write, succeeds for every group; the frames to
    write all have the non-partition columns of the input, in their
    order, and together they hold the data cells of every input row
    exactly once. *)
Theorem written_frames_keep_rows df partition_cols preserve_index groups :
  _get_partition_groups df partition_cols preserve_index = Ok groups ->
  exists write_dfs,
    map_result (fun sub_df => drop_columns sub_df partition_cols) groups
      = Ok write_dfs /\
    Forall (fun write_df =>
              columns write_df
              = filter (fun c => negb (mem (fst c) partition_cols)) (columns df))
           write_dfs /\
    Permutation (map cells (rows (without_columns df partition_cols)))
                (map cells (concat (map rows write_dfs))).
Proof.
  intros Hret.
  pose proof (partition_groups_columns _ _ _ _ Hret) as Hcols.
  pose proof (partition_groups_cells _ _ _ _ Hret) as Hperm.
  destruct (partition_groups_inversion _ _ _ _ Hret)
    as (pos & _ & _ & _ & Hpos & _).
  pose proof (col_indices_incl _ _ _ Hpos) as Hincl.
  exists (map (fun g => without_columns g partition_cols) groups).
  split; [|split].
  - apply map_result_ok. intros g Hg. apply drop_columns_ok.
    unfold column_names. now rewrite (Hcols g Hg).
  - rewrite Forall_map, Forall_forall. intros g Hg.
    unfold without_columns. cbn [columns]. now rewrite (Hcols g Hg).
  - rewrite (without_columns_cells df (columns df)) by reflexivity.
    set (keep := map (fun c => negb (mem (fst c) partition_cols)) (columns df)).
    apply (Permutation_map (drop_cells keep)) in Hperm.
    eapply Permutation_trans; [exact Hperm|].
    apply Permutation_refl'. now apply dropped_groups_cells.
Qed.

Lemma written_frames_keep_rows_witness :
  exists write_dfs,
    map_result (fun sub_df => drop_columns sub_df ["grp"])
      [mkDF (columns example_df)
            [mkRow 0 [SInt 1; SStr "x"]; mkRow 1 [SInt 3; SStr "x"]];
       mkDF (columns example_df)
            [mkRow 2 [SInt 2; SStr "y"]; mkRow 3 [SInt 4; SStr "y"]]]
      = Ok write_dfs /\
    Permutation [[SInt 1]; [SInt 2]; [SInt 3]; [SInt 4]]
                (map cells (concat (map rows write_dfs))).
Proof.
  destruct (written_frames_keep_rows example_df ["grp"] None _ eq_refl)
    as (write_dfs & Hdrop & _ & Hperm).
  exists write_dfs. split; [exact Hdrop|exact Hperm].
Defined.

(** ** Asking for metadata does not change what is written *)

Lemma same_effect_bind {A A' B B'} (m1 : M A) (m2 : M A')
    (f1 : A -> M B) (f2 : A' -> M B') w :
  same_effect (m1 w) (m2 w) ->
  (forall a a' w', same_effect (f1 a w') (f2 a' w')) ->
  same_effect (bind m1 f1 w) (bind m2 f2 w).
Proof.
  unfold same_effect, bind. intros [Hw Hr] Hf.
  destruct (m1 w) as [[a|e] w1], (m2 w) as [[a'|e'] w2]; simpl in *;
    subst; try contradiction; auto.
Qed.

Lemma same_effect_bind_same {A B B'} (m : M A) (f1 : A -> M B)
    (f2 : A -> M B') w :
  (forall a w', same_effect (f1 a w') (f2 a w')) ->
  same_effect (bind m f1 w) (bind m f2 w).
Proof.
  unfold same_effect, bind. intros Hf.
  destruct (m w) as [[a|e] w1]; simpl; auto.
Qed.

Lemma df_to_parquet_same_effect env wdf path index mfp mfp' kwargs w :
  given "metadata_file_path" (kw_rest kwargs) = false ->
  same_effect
    (df_to_parquet (to_parquet_with env no_dataset) wdf path index mfp kwargs w)
    (df_to_parquet (to_parquet_with env no_dataset) wdf path index mfp' kwargs w).
Proof.
  intros Hm. unfold df_to_parquet. rewrite Hm, !andb_false_r.
  destruct (_ || _); [unfold same_effect; simpl; auto|].
  unfold to_parquet_with, same_effect.
  destruct (String.eqb _ "cudf"); simpl nonempty; cbv iota.
  - destruct (has_category wdf); simpl; auto.
  - destruct (_ || _); [simpl; auto|].
    unfold bind, log_write, ret.
    destruct (pq_write_to_dataset _ _ _ _ _ _); simpl; auto.
Qed.

Lemma write_groups_same_effect env fs root_path partition_cols preserve_index
    kwargs groups :
  given "metadata_file_path" (kw_rest kwargs) = false ->
  forall metadata metadata' w,
    same_effect
      (write_groups env (to_parquet_with env no_dataset) fs root_path
         partition_cols preserve_index true kwargs groups metadata w)
      (write_groups env (to_parquet_with env no_dataset) fs root_path
         partition_cols preserve_index false kwargs groups metadata' w).
Proof.
  intros Hm.
  induction groups as [|sub_df groups IH]; intros metadata metadata' w.
  - simpl. unfold same_effect. simpl. auto.
  - cbn [write_groups]. destruct (len sub_df =? 0)%nat; [apply IH|].
    apply same_effect_bind_same. intros keys w1.
    apply same_effect_bind_same. intros _ w2.
    apply same_effect_bind_same. intros guid_ w3.
    apply same_effect_bind_same. intros write_df w4.
    apply same_effect_bind.
    + now apply df_to_parquet_same_effect.
    + intros. apply IH.
Qed.

(** X10: when [metadata_file_path] is not among the keyword arguments,
    [write_to_dataset] leaves the same directories, files, file names
    and warnings behind whether or not metadata is requested; if the
    run without metadata raises, the run with metadata raises the same
    exception, and a run without metadata that returns, returns
    [None]. *)
Theorem return_metadata_same_files env df root_path partition_cols fs
    preserve_index kwargs w :
  given "metadata_file_path" (kw_rest kwargs) = false ->
  snd (write_to_dataset env df root_path partition_cols fs preserve_index
         true kwargs w)
  = snd (write_to_dataset env df root_path partition_cols fs preserve_index
           false kwargs w) /\
  (forall e,
     fst (write_to_dataset env df root_path partition_cols fs preserve_index
            false kwargs w) = Raise e ->
     fst (write_to_dataset env df root_path partition_cols fs preserve_index
            true kwargs w) = Raise e) /\
  (forall r,
     fst (write_to_dataset env df root_path partition_cols fs preserve_index
            false kwargs w) = Ok r -> r = None).
Proof.
  intros Hm.
  set (fs' := _ensure_filesystem env fs root_path).
  set (w1 := mkWorld (dirs w ++ [root_path]) (written w) (guids w) (warnings w)).
  assert (Hsame :
    same_effect
      (collect_metadata env (to_parquet_with env no_dataset) df root_path
         partition_cols fs' preserve_index true kwargs w1)
      (collect_metadata env (to_parquet_with env no_dataset) df root_path
         partition_cols fs' preserve_index false kwargs w1) /\
    (forall metadata w',
       collect_metadata env (to_parquet_with env no_dataset) df root_path
         partition_cols fs' preserve_index false kwargs w1 = (Ok metadata, w') ->
       metadata = [])).
  { unfold collect_metadata.
    destruct partition_cols as [[|p ps]|].
    - split.
      + apply same_effect_bind_same. intros guid_ w2.
        apply same_effect_bind; [now apply df_to_parquet_same_effect|].
        intros. unfold same_effect. simpl. auto.
      + intros metadata w'. unfold bind, fresh_guid, ret.
        destruct (df_to_parquet _ _ _ _ _ _ _) as [[a|e] w2]; intros H;
          inversion H; reflexivity.
    - split.
      + apply same_effect_bind_same. intros data_cols w2.
        destruct (List.length data_cols =? 0)%nat;
          [unfold same_effect; simpl; auto|].
        apply same_effect_bind_same. intros groups w3.
        now apply write_groups_same_effect.
      + intros metadata w'. unfold bind at 1. unfold lift at 1.
        destruct (index_drop _ _) as [data_cols|e]; [|discriminate].
        destruct (List.length data_cols =? 0)%nat; [discriminate|].
        unfold bind at 1. unfold lift at 1.
        destruct (_get_partition_groups _ _ _) as [groups|e]; [|discriminate].
        assert (Hmd : forall gs md w0 md' w0',
                  write_groups env (to_parquet_with env no_dataset) fs' root_path
                    (p :: ps) preserve_index false kwargs gs md w0
                  = (Ok md', w0') -> md' = md).
        { induction gs as [|g gs IHg]; intros md w0 md' w0' H.
          - simpl in H. unfold ret in H. now inversion H.
          - cbn [write_groups] in H.
            destruct (len g =? 0)%nat; [eapply IHg; eauto|].
            unfold bind at 1 in H. destruct (lift _ w0) as [[a|e] wa];
              [|discriminate].
            unfold bind at 1 in H. destruct (mkdirs _ wa) as [[b|e] wb];
              [|discriminate].
            unfold bind at 1 in H. destruct (fresh_guid env wb) as [[c|e] wc];
              [|discriminate].
            unfold bind at 1 in H. destruct (lift _ wc) as [[d|e] wd];
              [|discriminate].
            unfold bind at 1 in H.
            destruct (df_to_parquet _ _ _ _ _ _ wd) as [[x|e] we];
              [|discriminate].
            eapply IHg; eauto. }
        intros H. now apply Hmd in H.
    - split.
      + apply same_effect_bind_same. intros guid_ w2.
        apply same_effect_bind; [now apply df_to_parquet_same_effect|].
        intros. unfold same_effect. simpl. auto.
      + intros metadata w'. unfold bind, fresh_guid, ret.
        destruct (df_to_parquet _ _ _ _ _ _ _) as [[a|e] w2]; intros H;
          inversion H; reflexivity. }
  destruct Hsame as [[Hw Hr] Hnone].
  rewrite !write_to_dataset_collects. fold fs' w1.
  destruct (collect_metadata _ _ _ _ _ _ _ true _ w1) as [[mt|et] wt].
  - destruct (collect_metadata _ _ _ _ _ _ _ false _ w1) as [[mf|ef] wf];
      simpl in Hw, Hr; [|contradiction].
    subst wf. rewrite (Hnone mf wt eq_refl).
    rewrite return_merged_world. simpl.
    split; [reflexivity|]. split; [discriminate|].
    intros r H. now inversion H.
  - destruct (collect_metadata _ _ _ _ _ _ _ false _ w1) as [[mf|ef] wf];
      simpl in Hw, Hr; [contradiction|].
    subst. simpl. split; [reflexivity|]. split; [auto|discriminate].
Qed.

Lemma return_metadata_same_files_witness :
  snd (write_to_dataset example_env example_df "root" (Some ["grp"]) None None
         true no_kwargs empty_world)
  = snd (write_to_dataset example_env example_df "root" (Some ["grp"]) None
           None false no_kwargs empty_world) /\
  fst (write_to_dataset example_env example_df "root" (Some ["grp"]) None None
         false no_kwargs empty_world) = Ok None.
Proof.
  destruct (return_metadata_same_files example_env example_df "root"
              (Some ["grp"]) None None no_kwargs empty_world eq_refl)
    as (Hworld & _ & Hnone).
  split; [exact Hworld|].
  reflexivity.
Defined.

(** ** Groups without rows are skipped *)

(** X11: the loop passes over a group without rows: no directory, no
    file name, no write; running the loop over any list of groups is
    running it over the groups that have rows. *)
Theorem write_groups_skips_empty env to_parquet fs root_path partition_cols
    preserve_index return_metadata kwargs groups :
  forall metadata w,
    write_groups env to_parquet fs root_path partition_cols preserve_index
      return_metadata kwargs groups metadata w
    = write_groups env to_parquet fs root_path partition_cols preserve_index
        return_metadata kwargs (filter has_rows groups) metadata w.
Proof.
  induction groups as [|sub_df groups IH]; intros metadata w; [reflexivity|].
  cbn [filter]. unfold has_rows at 1.
  destruct (len sub_df =? 0)%nat eqn:Hlen; cbn [negb].
  - cbn [write_groups]. rewrite Hlen. apply IH.
  - cbn [write_groups]. rewrite Hlen.
    apply bind_ext; [reflexivity|]. intros keys w1.
    apply bind_ext; [reflexivity|]. intros _ w2.
    apply bind_ext; [reflexivity|]. intros guid_ w3.
    apply bind_ext; [reflexivity|]. intros write_df w4.
    destruct return_metadata; apply bind_ext; intros; try reflexivity;
      apply IH.
Qed.

(** ** [read_parquet]: effects and the content-encoding error *)

(** X12: [read_parquet] never creates a directory, writes a file or
    draws a file name.  When the resolver reports a content encoding it
    raises [ValueError] for every engine, without a warning; otherwise
    it warns, once, exactly when the engine is not ["cudf"]. *)
Theorem read_parquet_effects env filepath_or_buffer engine cols row_group
    row_group_count skip_rows num_rows strings_to_categorical
    use_pandas_metadata args kwargs w r w' :
  read_parquet env filepath_or_buffer engine cols row_group row_group_count
    skip_rows num_rows strings_to_categorical use_pandas_metadata args kwargs w
  = (r, w') ->
  dirs w' = dirs w /\
  written w' = written w /\
  guids w' = guids w /\
  match snd (get_filepath_or_buffer env filepath_or_buffer kwargs) with
  | Some _ =>
      r = Raise (ValueError "URL content-encoding decompression is not supported")
      /\ warnings w' = warnings w
  | None =>
      warnings w' =
        warnings w ++
        (if String.eqb engine "cudf" then []
         else ["Using CPU via PyArrow to read Parquet dataset."])
  end.
Proof.
  unfold read_parquet.
  destruct (get_filepath_or_buffer env filepath_or_buffer kwargs) as [fob c].
  simpl snd. destruct c as [c|].
  - unfold raise. intros H. inversion H; subst. auto.
  - destruct (String.eqb engine "cudf").
    + intros H. inversion H; subst. rewrite app_nil_r. auto.
    + unfold bind, warn. intros H. inversion H; subst. auto.
Qed.

Lemma read_parquet_effects_witness :
  warnings (snd (read_parquet example_env "t.parquet" "pyarrow" None None None
                   None None false true [] [] empty_world))
  = ["Using CPU via PyArrow to read Parquet dataset."] /\
  written (snd (read_parquet example_env "t.parquet" "pyarrow" None None None
                  None None false true [] [] empty_world)) = [].
Proof.
  destruct (read_parquet_effects example_env "t.parquet" "pyarrow" None None
              None None None false true [] [] empty_world _ _
              (surjective_pairing _))
    as (_ & Hwritten & _ & Hwarn).
  split; [exact Hwarn|exact Hwritten].
Defined.

(** ** [to_parquet]: the fallback engine and the partitioned call *)

Lemma to_parquet_fallback_run env df path engine compression index
    partition_cols statistics metadata_file_path args kwargs w :
  engine <> "cudf" ->
  to_parquet env df path engine compression index partition_cols statistics
    metadata_file_path args kwargs w
  = if some_args args || given "table" (kw_extra kwargs)
       || given "root_path" (kw_extra kwargs)
    then (Raise TypeError, w)
    else
      let pa_table := to_arrow df (default true index) in
      let w' := add_write w (ArrowWrite pa_table path partition_cols [] kwargs) in
      (match pq_write_to_dataset env w' pa_table path partition_cols kwargs with
       | Ok _ => Ok None
       | Raise e => Raise e
       end, w').
Proof.
  intros Hengine. apply String.eqb_neq in Hengine.
  unfold to_parquet, to_parquet_with. rewrite Hengine.
  replace (match index with Some b => b | None => true end)
    with (default true index) by now destruct index.
  destruct args as [|a args]; [|reflexivity]. cbn [some_args orb].
  destruct (_ || _); [reflexivity|].
  unfold bind, log_write, ret, add_write. cbv zeta.
  now destruct (pq_write_to_dataset _ _ _ _ _ _).
Qed.

(** X13: with an engine other than ["cudf"], [to_parquet] does not look
    at [compression], [statistics] or [metadata_file_path], and
    [index=None] is [index=True].  An extra
    positional argument is a [TypeError] before the CPU writer is
    called.  The module creates no directory, draws no file name and
    emits no warning itself; it calls the CPU writer at most once, with
    the Arrow table, the path, the partition columns and the keyword
    arguments, and when it returns it returns [None]. *)
Theorem to_parquet_fallback env df path engine compression compression' index
    partition_cols statistics statistics' metadata_file_path metadata_file_path'
    args kwargs w :
  engine <> "cudf" ->
  to_parquet env df path engine compression index partition_cols statistics
    metadata_file_path args kwargs w
  = to_parquet env df path engine compression' index partition_cols statistics'
      metadata_file_path' args kwargs w
  /\
  to_parquet env df path engine compression None partition_cols statistics
    metadata_file_path args kwargs w
  = to_parquet env df path engine compression (Some true) partition_cols
      statistics metadata_file_path args kwargs w
  /\
  (args <> [] ->
   to_parquet env df path engine compression index partition_cols statistics
     metadata_file_path args kwargs w = (Raise TypeError, w))
  /\
  exists r w',
    to_parquet env df path engine compression index partition_cols statistics
      metadata_file_path args kwargs w = (r, w') /\
    dirs w' = dirs w /\ guids w' = guids w /\ warnings w' = warnings w /\
    (forall md, r = Ok md -> md = None) /\
    (written w' = written w \/
     written w' = written w ++
       [ArrowWrite (to_arrow df (default true index)) path partition_cols []
          kwargs]).
Proof.
  intros Hengine.
  split; [now rewrite !to_parquet_fallback_run by exact Hengine|].
  split; [now rewrite !to_parquet_fallback_run by exact Hengine|].
  split.
  { intros Hargs. rewrite to_parquet_fallback_run by exact Hengine.
    destruct args; [contradiction|reflexivity]. }
  rewrite to_parquet_fallback_run by exact Hengine.
  destruct (_ || _).
  - eexists _, _. split; [reflexivity|]. repeat split; auto. discriminate.
  - cbv zeta. eexists _, _. split; [reflexivity|]. cbn.
    repeat split; auto.
    intros md H. destruct (pq_write_to_dataset _ _ _ _ _ _);
      now inversion H.
Qed.

Lemma to_parquet_fallback_witness :
  has_category categorical_df = true /\
  to_parquet example_env categorical_df "root" "pyarrow" (Some "snappy") None
    (Some ["grp"]) "ROWGROUP" None [] no_dataset_kwargs empty_world
  = to_parquet example_env categorical_df "root" "pyarrow" None None
    (Some ["grp"]) "NONE" (Some "_metadata") [] no_dataset_kwargs empty_world /\
  to_parquet example_env categorical_df "root" "pyarrow" (Some "snappy") None
    (Some ["grp"]) "ROWGROUP" None [PInt 1] no_dataset_kwargs empty_world
  = (Raise TypeError, empty_world).
Proof.
  split; [reflexivity|]. split.
  - apply (proj1 (to_parquet_fallback example_env categorical_df "root"
                    "pyarrow" (Some "snappy") None None (Some ["grp"])
                    "ROWGROUP" "NONE" None (Some "_metadata") []
                    no_dataset_kwargs empty_world ltac:(discriminate))).
  - apply (proj1 (proj2 (proj2
             (to_parquet_fallback example_env categorical_df "root"
                "pyarrow" (Some "snappy") None None (Some ["grp"])
                "ROWGROUP" "NONE" None (Some "_metadata") [PInt 1]
                no_dataset_kwargs empty_world ltac:(discriminate))))).
    discriminate.
Defined.

(** X14: on the accelerated path with partition columns, [to_parquet]
    does not look at [compression], [statistics], [metadata_file_path]
    or the extra positional arguments.  When an entry of its keyword
    arguments repeats an argument of its call of [write_to_dataset]
    ([root_path], [preserve_index]) it raises [TypeError] and does
    nothing; otherwise the call leaves what [write_to_dataset] leaves
    when it is given the frame, the path, the partition columns,
    [index] and the keyword arguments, and nothing else. *)
Theorem to_parquet_partitioned_ignores_options env df path compression
    compression' index partition_cols statistics statistics'
    metadata_file_path metadata_file_path' args args' kwargs w :
  nonempty partition_cols = true ->
  to_parquet env df path "cudf" compression index partition_cols statistics
    metadata_file_path args kwargs w
  = to_parquet env df path "cudf" compression' index partition_cols statistics'
      metadata_file_path' args' kwargs w
  /\
  if given "root_path" (kw_extra kwargs)
     || given "preserve_index" (kw_extra kwargs)
  then
    to_parquet env df path "cudf" compression index partition_cols
      statistics metadata_file_path args kwargs w = (Raise TypeError, w)
  else
    snd (to_parquet env df path "cudf" compression index partition_cols
           statistics metadata_file_path args kwargs w)
    = snd (write_to_dataset env df path partition_cols (kw_fs kwargs) index
             (default false (kw_return_metadata kwargs))
             (mkKw None None None (kw_extra kwargs)) w).
Proof.
  intros Hpart. unfold to_parquet, to_parquet_with.
  rewrite String.eqb_refl, Hpart. split; [reflexivity|].
  destruct (_ || _); [reflexivity|].
  unfold bind.
  destruct (write_to_dataset _ _ _ _ _ _ _ _ _) as [[a|e] w1]; reflexivity.
Qed.

Lemma to_parquet_partitioned_ignores_options_witness :
  to_parquet example_env example_df "root" "cudf" None None (Some ["grp"])
    "NONE" (Some "_metadata") [PInt 1] no_dataset_kwargs empty_world
  = to_parquet example_env example_df "root" "cudf" (Some "snappy") None
      (Some ["grp"]) "ROWGROUP" None [] no_dataset_kwargs empty_world.
Proof.
  apply (proj1 (to_parquet_partitioned_ignores_options example_env example_df
                  "root" None (Some "snappy") None (Some ["grp"]) "NONE"
                  "ROWGROUP" (Some "_metadata") None [PInt 1] []
                  no_dataset_kwargs empty_world eq_refl)).
Defined.

(** X15: on the accelerated path without partition columns,
    [to_parquet] does not look at the extra positional or keyword
    arguments; it creates no directory, draws no file name and emits no
    warning, whether it returns or raises, and it writes at most one
    file, at [path]. *)
Theorem to_parquet_single_effects env df path compression index
    partition_cols statistics metadata_file_path args args' kwargs kwargs' w :
  nonempty partition_cols = false ->
  to_parquet env df path "cudf" compression index partition_cols statistics
    metadata_file_path args kwargs w
  = to_parquet env df path "cudf" compression index partition_cols statistics
      metadata_file_path args' kwargs' w
  /\
  exists r w',
    to_parquet env df path "cudf" compression index partition_cols statistics
      metadata_file_path args kwargs w = (r, w') /\
    dirs w' = dirs w /\
    guids w' = guids w /\
    warnings w' = warnings w /\
    (written w' = written w \/
     exists file, written w' = written w ++ [NativeWrite path file]).
Proof.
  intros Hpart. unfold to_parquet, to_parquet_with.
  rewrite String.eqb_refl, Hpart. split; [reflexivity|].
  destruct (has_category df).
  - eexists _, _. split; [reflexivity|]. auto.
  - unfold libparquet_write_parquet, bind, log_write, ret.
    eexists _, _. split; [reflexivity|]. cbn.
    repeat split; auto. right. eexists. reflexivity.
Qed.

Lemma to_parquet_single_effects_witness :
  exists r w',
    to_parquet example_env example_df "t.parquet" "cudf" (Some "snappy") None
      None "ROWGROUP" None [] no_dataset_kwargs empty_world = (r, w') /\
    dirs w' = [] /\ guids w' = 0 /\
    map event_path (written w') = ["t.parquet"].
Proof.
  destruct (to_parquet_single_effects example_env example_df "t.parquet"
              (Some "snappy") None None "ROWGROUP" None [] [PInt 1]
              no_dataset_kwargs with_metadata empty_world eq_refl)
    as (_ & r & w' & Hrun & Hdirs & Hguids & _ & _).
  exists r, w'. split; [exact Hrun|].
  split; [exact Hdirs|]. split; [exact Hguids|].
  cbv in Hrun. inversion Hrun. reflexivity.
Defined.

(** ** Keyword arguments that repeat an argument of the inner call *)

Lemma df_to_parquet_collides to_parquet wdf path index mfp kwargs w :
  given "self" (kw_rest kwargs) || given "path" (kw_rest kwargs)
  || given "index" (kw_rest kwargs)
  || (match mfp with Some _ => true | None => false end
      && given "metadata_file_path" (kw_rest kwargs)) = true ->
  df_to_parquet to_parquet wdf path index mfp kwargs w = (Raise TypeError, w).
Proof. intros H. unfold df_to_parquet. now rewrite H. Qed.

Lemma write_groups_collides env to_parquet fs root_path partition_cols
    preserve_index return_metadata kwargs cols pos g k groups metadata w :
  col_indices partition_cols cols = Ok pos ->
  incl partition_cols (map fst cols) ->
  group_of_key cols pos g k ->
  given "self" (kw_rest kwargs) || given "path" (kw_rest kwargs)
  || given "index" (kw_rest kwargs)
  || (return_metadata && given "metadata_file_path" (kw_rest kwargs)) = true ->
  write_groups env to_parquet fs root_path partition_cols preserve_index
    return_metadata kwargs (g :: groups) metadata w
  = (Raise TypeError,
     mkWorld (dirs w ++ [sep_join fs [root_path; subdir_of fs partition_cols k]])
             (written w) (S (guids w)) (warnings w)).
Proof.
  intros Hpos Hincl [Hne [Hcols Hkey]] Hrep.
  destruct (rows g) as [|r rest] eqn:Hrows; [contradiction|].
  assert (Hlen : (len g =? 0)%nat = false).
  { unfold len. now rewrite Hrows. }
  assert (Hfirst : first_values g partition_cols = Ok k).
  { rewrite (first_values_ok g partition_cols pos r rest);
      [|now rewrite Hcols|assumption].
    f_equal. now inversion Hkey. }
  assert (Hdrop : drop_columns g partition_cols
                  = Ok (without_columns g partition_cols)).
  { apply drop_columns_ok. unfold column_names. now rewrite Hcols. }
  cbn [write_groups]. rewrite Hlen.
  unfold bind at 1. unfold lift at 1. rewrite Hfirst.
  unfold bind at 1. unfold mkdirs at 1.
  unfold bind at 1. unfold fresh_guid at 1.
  unfold bind at 1. unfold lift at 1. rewrite Hdrop.
  cbn [dirs written guids warnings].
  destruct return_metadata; unfold bind at 1;
    now rewrite df_to_parquet_collides.
Qed.

(** X16: an entry of the keyword arguments that repeats an argument of
    the inner call ([self], [path], [index], and [metadata_file_path]
    when metadata is requested) is a [TypeError] at the first write,
    whatever the engine.  By then an unpartitioned write has created
    the root directory and drawn a file name; a partitioned write of a
    table with rows has also created the directory of the first key.
    No file is written, and the directories stay. *)
Theorem write_to_dataset_repeated_keyword env df root_path partition_cols fs
    preserve_index return_metadata kwargs w :
  given "self" (kw_rest kwargs) || given "path" (kw_rest kwargs)
  || given "index" (kw_rest kwargs)
  || (return_metadata && given "metadata_file_path" (kw_rest kwargs)) = true ->
  (nonempty partition_cols = true ->
   incl (default [] partition_cols) (column_names df) /\
   (exists c, In c (column_names df) /\ ~ In c (default [] partition_cols)) /\
   rows df <> []) ->
  exists w' created fs',
    fs' = _ensure_filesystem env fs root_path /\
    write_to_dataset env df root_path partition_cols fs preserve_index
      return_metadata kwargs w = (Raise TypeError, w') /\
    dirs w' = dirs w ++ root_path :: created /\
    written w' = written w /\
    guids w' = S (guids w) /\
    warnings w' = warnings w /\
    (nonempty partition_cols = false -> created = []) /\
    (nonempty partition_cols = true ->
     exists pos row,
       col_indices (default [] partition_cols) (columns df) = Ok pos /\
       In row (rows df) /\
       created =
         [(root_path ++ sep fs' ++
           String.concat (sep fs')
             (segments (default [] partition_cols) (project pos row)))%string]).
Proof.
  intros Hrep Hpart.
  set (fs' := _ensure_filesystem env fs root_path).
  rewrite write_to_dataset_collects. fold fs'.
  destruct (nonempty partition_cols) eqn:Hne.
  - destruct partition_cols as [[|p ps]|]; try discriminate.
    simpl default in *. set (pcs := p :: ps) in *.
    destruct (Hpart eq_refl) as [Hincl [Hdata Hrows]].
    destruct (col_indices_ok pcs (columns df) Hincl) as [pos Hpos].
    destruct (partition_groups_of_keys df pcs preserve_index pos Hpos)
      as (groups & keys & Hgroups & Hcover & Hgk).
    destruct Hgk as [|g k groups keys Hg Hgk].
    { exfalso. destruct (rows df) as [|r rest] eqn:Er; [contradiction|].
      apply (proj2 (Hcover (project pos r))). simpl. now left. }
    assert (Hk : exists row, In row (rows df) /\ project pos row = k).
    { assert (Hin : In k (map (project pos) (rows df)))
        by (apply Hcover; now left).
      apply in_map_iff in Hin. destruct Hin as [row [Hrow Hin]]. eauto. }
    destruct Hk as [row [Hrow Hkey]].
    rewrite collect_metadata_some by discriminate.
    unfold bind at 1. unfold lift at 1.
    rewrite (index_drop_ok _ _ Hincl), (data_columns_left _ _ Hdata).
    unfold bind at 1. unfold lift at 1. rewrite Hgroups.
    rewrite (write_groups_collides env _ fs' root_path pcs preserve_index
               return_metadata kwargs (columns df) pos g k groups [] _
               Hpos Hincl Hg Hrep).
    eexists _, _, fs'. split; [reflexivity|]. split; [reflexivity|].
    cbn [dirs written guids warnings].
    split; [now rewrite <- app_assoc|].
    split; [reflexivity|]. split; [reflexivity|]. split; [reflexivity|].
    split; [discriminate|].
    intros _. exists pos, row. split; [exact Hpos|]. split; [exact Hrow|].
    rewrite Hkey. now rewrite sep_join_pair.
  - rewrite collect_metadata_unpartitioned by exact Hne.
    unfold collect_metadata.
    unfold bind at 1. unfold fresh_guid at 1.
    cbn [guids dirs written warnings].
    exists (mkWorld (dirs w ++ [root_path]) (written w) (S (guids w))
                    (warnings w)), [], fs'.
    split; [reflexivity|]. split.
    { destruct return_metadata; unfold bind at 1;
        now rewrite df_to_parquet_collides. }
    cbn [dirs written guids warnings].
    repeat split; auto. discriminate.
Qed.

Lemma write_to_dataset_repeated_keyword_witness :
  write_to_dataset example_env example_df "root" (Some ["grp"]) None None false
    index_kwargs empty_world
  = (Raise TypeError, mkWorld ["root"; "root/grp=x"] [] 1 []).
Proof.
  destruct (write_to_dataset_repeated_keyword example_env example_df "root"
              (Some ["grp"]) None None false index_kwargs empty_world eq_refl)
    as (w' & created & fs' & _ & Hrun & _).
  - intros _. split; [exact example_incl|]. split; [exact example_data_left|].
    discriminate.
  - rewrite Hrun. cbv in Hrun. now inversion Hrun.
Defined.
